(** * Matrix4: a verified model of [sample_files/matrix_math.cpp]

    The C++ class [Matrix4] owns a heap buffer [float* m] of 16 scalars
    (row-major 4x4) and offers [identity], [multiply], [setTranslation]
    and [getDeterminant].  The model below keeps the program's shape:

    - the free store is a finite map from locations to arrays of cells,
      a cell being [None] while its value is indeterminate (fresh from
      [new float[16]]) and [Some x] once written;
    - every method is a computation in a state-and-failure monad over that
      store; a read of a dangling pointer, of an index out of range or of
      an indeterminate cell fails;
    - the scalar arithmetic is an interface [Scalar], instantiated with
      IEEE 754 binary32 (the program's [float], through the Standard
      Library's [SpecFloat], round to nearest even, every operation
      rounded on its own) and with exact integer arithmetic.

    The facts come in four layers: what the methods do to the store for
    every scalar arithmetic; what binary32 adds or takes away (products
    with 1.0 and 0.0, overflow, the sign of zero); the integers below
    2^24, on which binary32 computes without rounding, so that the program
    agrees there with exact arithmetic; and, for arbitrary binary32
    values, the rounding error of every operation, carried through the
    sums of products of [multiply] and [getDeterminant]. *)

From Stdlib Require Import ZArith QArith Qabs Bool Lia.
From Stdlib Require Reals Lra Qreals.
From Stdlib Require Import Floats.SpecFloat.
From stdpp Require Import gmap list.

(** ** Scalars *)

Class Scalar (F : Type) : Type := {
  fzero : F;                (* the literal 0.0f *)
  fone : F;                 (* the literal 1.0f *)
  fadd : F → F → F;         (* a + b *)
  fsub : F → F → F;         (* a - b *)
  fmul : F → F → F          (* a * b *)
}.

(** ** The free store and the monad of the methods *)

Definition loc := positive.

(** An array of [float]; [None] is a cell that was never written. *)
Abbreviation buffer F := (list (option F)).
Abbreviation heap F := (gmap loc (buffer F)).

Section Program.
Context {F : Type} `{Scalar F}.

Definition M (A : Type) : Type := heap F → option (A * heap F).

Definition ret {A} (a : A) : M A := λ h, Some (a, h).

Definition bind {A B} (c : M A) (k : A → M B) : M B :=
  λ h, match c h with
       | Some (a, h') => k a h'
       | None => None
       end.

Notation "x <- c ;; k" := (bind c (λ x, k))
  (at level 100, c at next level, right associativity).
Notation "c ;;; k" := (bind c (λ _, k))
  (at level 100, right associativity).

(** [new float[n]]: a fresh location holding [n] indeterminate cells. *)
Definition new_array (n : nat) : M loc :=
  λ h, let l := fresh (dom h) in Some (l, <[l := replicate n None]> h).

(** [delete[] p]. *)
Definition delete_array (p : loc) : M unit :=
  λ h, match h !! p with
       | Some _ => Some (tt, delete p h)
       | None => None
       end.

(** The rvalue [p[i]]. *)
Definition load (p : loc) (i : nat) : M F :=
  λ h, match h !! p with
       | Some b => match b !! i with
                   | Some (Some x) => Some (x, h)
                   | _ => None
                   end
       | None => None
       end.

(** The assignment [p[i] = x]. *)
Definition store (p : loc) (i : nat) (x : F) : M unit :=
  λ h, match h !! p with
       | Some b => if decide (i < length b)
                   then Some (tt, <[p := <[i := Some x]> b]> h)
                   else None
       | None => None
       end.

(** [for (int i = lo; i < lo + n; ++i) body(i)]. *)
Fixpoint for_from (lo n : nat) (body : nat → M unit) : M unit :=
  match n with
  | O => ret tt
  | S n' => body lo ;;; for_from (S lo) n' body
  end.

Definition for_upto (n : nat) (body : nat → M unit) : M unit :=
  for_from 0 n body.

(** ** The class *)

Record Matrix4 : Type := { m : loc }.

(** [m[0] = m[5] = m[10] = m[15] = 1.0f] assigns right to left, each
    assignment yielding the value of its left operand. *)
Definition identity (this : Matrix4) : M unit :=
  for_upto 16 (λ i, store (m this) i fzero) ;;;
  store (m this) 15 fone ;;;
  v15 <- load (m this) 15 ;;
  store (m this) 10 v15 ;;;
  v10 <- load (m this) 10 ;;
  store (m this) 5 v10 ;;;
  v5 <- load (m this) 5 ;;
  store (m this) 0 v5.

Definition Matrix4_new : M Matrix4 :=
  p <- new_array 16 ;;
  let this := {| m := p |} in
  identity this ;;;
  ret this.

Definition Matrix4_delete (this : Matrix4) : M unit :=
  delete_array (m this).

Definition multiply (this other : Matrix4) : M unit :=
  temp <- new_array 16 ;;
  for_upto 4 (λ r,
    for_upto 4 (λ c,
      store temp (r * 4 + c) fzero ;;;
      for_upto 4 (λ k,
        t <- load temp (r * 4 + c) ;;
        a <- load (m this) (r * 4 + k) ;;
        b <- load (m other) (k * 4 + c) ;;
        store temp (r * 4 + c) (fadd t (fmul a b))))) ;;;
  for_upto 16 (λ i, x <- load temp i ;; store (m this) i x) ;;;
  delete_array temp.

Definition setTranslation (this : Matrix4) (x y z : F) : M unit :=
  store (m this) 12 x ;;;
  store (m this) 13 y ;;;
  store (m this) 14 z.

Definition getDeterminant (this : Matrix4) : M F :=
  m0 <- load (m this) 0 ;;
  m1 <- load (m this) 1 ;;
  m2 <- load (m this) 2 ;;
  m4 <- load (m this) 4 ;;
  m5 <- load (m this) 5 ;;
  m6 <- load (m this) 6 ;;
  m8 <- load (m this) 8 ;;
  m9 <- load (m this) 9 ;;
  m10 <- load (m this) 10 ;;
  ret (fadd (fsub (fmul m0 (fsub (fmul m5 m10) (fmul m6 m9)))
                  (fmul m1 (fsub (fmul m4 m10) (fmul m6 m8))))
            (fmul m2 (fsub (fmul m4 m9) (fmul m5 m8)))).

End Program.

Notation "x <- c ;; k" := (bind c (λ x, k))
  (at level 100, c at next level, right associativity).
Notation "c ;;; k" := (bind c (λ _, k))
  (at level 100, right associativity).

(** ** binary32 *)

Definition prec32 : Z := 24.
Definition emax32 : Z := 128.

#[global] Instance binary32 : Scalar spec_float := {|
  fzero := S754_zero false;
  fone := S754_finite false 8388608 (-23);
  fadd := SFadd prec32 emax32;
  fsub := SFsub prec32 emax32;
  fmul := SFmul prec32 emax32
|}.

(** The float nearest to the integer [n] (exact for |n| < 2^24). *)
Definition f32_of_Z (n : Z) : spec_float :=
  binary_normalize prec32 emax32 n 0 false.

(** [main] yields what it prints after ["Det: "] and its exit status. *)
Definition main : M (F := spec_float) (spec_float * Z) :=
  matA <- Matrix4_new ;;
  matB <- Matrix4_new ;;
  setTranslation matA (f32_of_Z 10) (f32_of_Z 5) (f32_of_Z 0) ;;;
  setTranslation matB (f32_of_Z 2) (f32_of_Z 3) (f32_of_Z 1) ;;;
  multiply matA matB ;;;
  det <- getDeterminant matA ;;
  Matrix4_delete matA ;;;
  Matrix4_delete matB ;;;
  ret (det, 0%Z).


(** ** Exact arithmetic, for comparison *)

#[global] Instance exactZ : Scalar Z := {|
  fzero := 0%Z;
  fone := 1%Z;
  fadd := Z.add;
  fsub := Z.sub;
  fmul := Z.mul
|}.

(** ** What the methods are expected to compute *)

Section Expected.
Context {F : Type} `{Scalar F}.

(** Element [i] of a matrix given by its 16 values. *)
Definition elt (A : list F) (i : nat) : F := default fzero (A !! i).

(** The store holds, at the buffer of [this], the 16 values [A]. *)
Definition holds (h : heap F) (this : Matrix4) (A : list F) : Prop :=
  h !! m this = Some (Some <$> A) ∧ length A = 16.

(** Sum over k = 0..3 of A[r][k] * B[k][c], added in the order of [k]
    starting from 0.0. *)
Definition dot (A B : list F) (r c : nat) : F :=
  foldl (λ acc k, fadd acc (fmul (elt A (r * 4 + k)) (elt B (k * 4 + c))))
        fzero (seq 0 4).

Definition product (A B : list F) : list F :=
  (λ i, dot A B (i `div` 4) (i `mod` 4)) <$> seq 0 16.

Definition identity_matrix : list F :=
  [fone; fzero; fzero; fzero;
   fzero; fone; fzero; fzero;
   fzero; fzero; fone; fzero;
   fzero; fzero; fzero; fone].

(** Determinant of a 2x2 block and cofactor expansion of a 3x3 block
    along its first row. *)
Definition det2 (a b c d : F) : F := fsub (fmul a d) (fmul b c).

Definition cofactor3 (a b c d e f g h i : F) : F :=
  fadd (fsub (fmul a (det2 e f h i)) (fmul b (det2 d f g i)))
       (fmul c (det2 d e g h)).

End Expected.

(** ** Reading binary32 values *)

(** A finite binary32 value: a zero, or a normal or subnormal number in
    canonical form. *)
Definition is_finite32 (x : spec_float) : bool :=
  match x with
  | S754_zero _ => true
  | S754_finite _ mx ex => bounded prec32 emax32 mx ex
  | _ => false
  end.

Definition is_zero32 (x : spec_float) : bool :=
  match x with
  | S754_zero _ => true
  | _ => false
  end.

(** Neither an infinity nor NaN. *)
Definition is_number (x : spec_float) : bool :=
  match x with
  | S754_zero _ | S754_finite _ _ _ => true
  | _ => false
  end.

(** [-0.0] read as [+0.0], every other value as itself. *)
Definition plus_zero (x : spec_float) : spec_float :=
  match x with
  | S754_zero _ => S754_zero false
  | _ => x
  end.

(** A mantissa shifted left by 23 bits, as in the product with the
    mantissa 2^23 of 1.0. *)
Definition shl23 (mx : positive) : positive :=
  (mx~0~0~0~0~0~0~0~0~0~0~0~0~0~0~0~0~0~0~0~0~0~0~0)%positive.

(** The rational number a finite value stands for. *)
Definition value32 (x : spec_float) : option Q :=
  match x with
  | S754_zero _ => Some 0%Q
  | S754_finite s mx ex =>
      Some (inject_Z (cond_Zopp s (Zpos mx)) * Qpower 2 ex)%Q
  | _ => None
  end.

(** Agreement up to a tolerance [tol]: both values are finite and differ
    by at most [tol]. *)
Definition within_tolerance (tol : Q) (x y : spec_float) : Prop :=
  match value32 x, value32 y with
  | Some a, Some b => (Qabs (a - b) <= tol)%Q
  | _, _ => False
  end.

(** ** Tolerances

    The distance allowed between the two ways of computing a triple
    product, at row [r] and column [c], and between the determinant of a
    block with two equal rows and 0.0.  Each is a relative part, 2^-19
    (2^-21) of the sum of the magnitudes of the exact terms, and an
    absolute part for what is rounded in the subnormal range. *)

Definition magnitude (x : spec_float) : Q :=
  match value32 x with
  | Some q => Qabs q
  | None => 0
  end.

Definition sum4 (f : nat → Q) : Q := (f 0%nat + f 1%nat + f 2%nat + f 3%nat)%Q.

Definition assoc_tolerance (A B C : list spec_float) (r c : nat) : Q :=
  (2 ^ (-19)
   * sum4 (λ k, sum4 (λ l,
       magnitude (elt A (r * 4 + k)) * magnitude (elt B (k * 4 + l))
       * magnitude (elt C (l * 4 + c))))
   + 2 ^ (-145)
     * (1 + sum4 (λ k, magnitude (elt A (r * 4 + k)))
          + sum4 (λ l, magnitude (elt C (l * 4 + c)))))%Q.

Definition det_tolerance (A : list spec_float) : Q :=
  (2 ^ (-21)
   * (magnitude (elt A 0) * magnitude (elt A 5) * magnitude (elt A 10)
      + magnitude (elt A 0) * magnitude (elt A 6) * magnitude (elt A 9)
      + magnitude (elt A 1) * magnitude (elt A 4) * magnitude (elt A 10)
      + magnitude (elt A 1) * magnitude (elt A 6) * magnitude (elt A 8)
      + magnitude (elt A 2) * magnitude (elt A 4) * magnitude (elt A 9)
      + magnitude (elt A 2) * magnitude (elt A 5) * magnitude (elt A 8))
   + 2 ^ (-147)
     * (1 + magnitude (elt A 0) + magnitude (elt A 1) + magnitude (elt A 2)))%Q.

(** ** Real values, for the analysis of rounding *)

Section RealValues.
Import Reals.
Local Open Scope R_scope.

(** 2^e. *)
Definition bpow (e : Z) : R := powerRZ 2 e.

(** The real number a binary32 value stands for (0 for those that stand
    for none). *)
Definition real32 (x : spec_float) : R :=
  match x with
  | S754_finite s mx ex => IZR (cond_Zopp s (Zpos mx)) * bpow ex
  | _ => 0
  end.

(** The unit roundoff 2^-24 and half the smallest subnormal, 2^-150. *)
Definition unit_roundoff : R := bpow (-24).
Definition tiny : R := bpow (-150).

Definition rsum4 (f : nat → R) : R := f 0%nat + f 1%nat + f 2%nat + f 3%nat.

(** The exact triple product of the values of three matrices at row [r]
    and column [c], and the same sum over the magnitudes. *)
Definition rtriple (A B C : list spec_float) (r c : nat) : R :=
  rsum4 (λ k, rsum4 (λ l,
    real32 (elt A (r * 4 + k)) * real32 (elt B (k * 4 + l))
    * real32 (elt C (l * 4 + c)))).

Definition atriple (A B C : list spec_float) (r c : nat) : R :=
  rsum4 (λ k, rsum4 (λ l,
    Rabs (real32 (elt A (r * 4 + k))) * Rabs (real32 (elt B (k * 4 + l)))
    * Rabs (real32 (elt C (l * 4 + c))))).

End RealValues.

(** ** Clients of [multiply] *)

Section Clients.
Context {F : Type} `{Scalar F}.

(** [a] receives (A x B) x C. *)
Definition triple_left (a b c : Matrix4) : M (F := F) unit :=
  multiply a b ;;;
  multiply a c.

(** [a] receives A x (B x C), [b] being overwritten with B x C. *)
Definition triple_right (a b c : Matrix4) : M (F := F) unit :=
  multiply b c ;;;
  multiply a b.

(** The part of [main] that precedes the output. *)
Definition main_setup (x1 y1 z1 x2 y2 z2 : F) : M (F := F) (Matrix4 * Matrix4) :=
  matA <- Matrix4_new ;;
  matB <- Matrix4_new ;;
  setTranslation matA x1 y1 z1 ;;;
  setTranslation matB x2 y2 z2 ;;;
  multiply matA matB ;;;
  ret (matA, matB).

End Clients.

(** ** Sample matrices and stores *)

(** 2^e as a binary32 value, for -126 <= e <= 127. *)
Definition pow2 (e : Z) : spec_float := S754_finite false 8388608 (e - 23).

Definition matrix_of_Z (l : list Z) : list spec_float := f32_of_Z <$> l.

Definition counting : list spec_float :=
  matrix_of_Z [1; 2; 3; 4; 5; 6; 7; 8; 9; 10; 11; 12; 13; 14; 15; 16]%Z.

Definition twice_identity : list spec_float :=
  matrix_of_Z [2; 0; 0; 0; 0; 2; 0; 0; 0; 0; 2; 0; 0; 0; 0; 2]%Z.

(** All zeros but the element at index 0. *)
Definition corner {F} `{Scalar F} (x : F) : list F :=
  x :: replicate 15 fzero.

(** All zeros but the element at index 4. *)
Definition below_corner {F} `{Scalar F} (x : F) : list F :=
  replicate 4 fzero ++ x :: replicate 11 fzero.

(** The 3x3 block with rows (a b c), (d e f), (g h i), completed with the
    identity's 4th row and column. *)
Definition block3 {F : Type} `{Scalar F} (a b c d e f g h i : F) : list F :=
  [a; b; c; fzero; d; e; f; fzero; g; h; i; fzero; fzero; fzero; fzero; fone].

(** The binary32 values nearest to 0.1, 0.2 and 0.3, and three matrices
    made of them and of small integers. *)
Definition tenth : spec_float := S754_finite false 13421773 (-27).
Definition fifth : spec_float := S754_finite false 13421773 (-26).
Definition three_tenths : spec_float := S754_finite false 10066330 (-25).

Definition fractions1 : list spec_float :=
  [tenth; fifth; three_tenths; tenth; fifth; three_tenths; tenth; fifth;
   three_tenths; tenth; fifth; three_tenths; tenth; fifth; three_tenths; tenth].
Definition fractions2 : list spec_float :=
  [three_tenths; fifth; three_tenths; tenth; fifth; fifth; tenth; fifth;
   three_tenths; tenth; tenth; three_tenths; tenth; fifth; three_tenths;
   three_tenths].
Definition fractions3 : list spec_float :=
  [fifth; f32_of_Z 3; tenth; f32_of_Z 7; three_tenths; fifth; tenth; fifth;
   three_tenths; tenth; fifth; three_tenths; f32_of_Z 5; fifth; three_tenths;
   tenth].

Definition matA : Matrix4 := {| m := 1%positive |}.
Definition matB : Matrix4 := {| m := 2%positive |}.
Definition matC : Matrix4 := {| m := 3%positive |}.

Definition store1 {F} (A : list F) : heap F :=
  {[ m matA := Some <$> A ]}.
Definition store2 {F} (A B : list F) : heap F :=
  <[ m matB := Some <$> B ]> (store1 A).
Definition store3 {F} (A B C : list F) : heap F :=
  <[ m matC := Some <$> C ]> (store2 A B).

(** ** Integers in binary32 *)

(** The canonical binary32 form of a positive integer [n] below 2^24:
    the mantissa is [n] shifted left to 24 bits. *)
Definition int_exponent (n : positive) : Z := (Zpos (digits2_pos n) - 24)%Z.

Definition int_mantissa (n : positive) : positive :=
  Nat.iter (Z.to_nat (- int_exponent n)) xO n.

Definition float_of_pos (s : bool) (n : positive) : spec_float :=
  S754_finite s (int_mantissa n) (int_exponent n).

Definition float_of_Z (n : Z) : spec_float :=
  match n with
  | Z0 => S754_zero false
  | Zpos p => float_of_pos false p
  | Zneg p => float_of_pos true p
  end.

(** The integer with sign bit [s] and magnitude [p]. *)
Definition signed (s : bool) (p : positive) : Z := cond_Zopp s (Zpos p).

(** [x] is the binary32 value of the integer [n]; a zero may carry either
    sign. *)
Definition stands_for (x : spec_float) (n : Z) : Prop :=
  x = float_of_Z n ∨ (n = 0%Z ∧ x = S754_zero true).

(** ** Affine matrices and sequences of calls *)

Section Shapes.
Context {F : Type} `{Scalar F}.

(** What a fresh matrix holds after [setTranslation(x, y, z)]. *)
Definition translation (x y z : F) : list F :=
  [fone; fzero; fzero; fzero;
   fzero; fone; fzero; fzero;
   fzero; fzero; fone; fzero;
   x; y; z; fone].

(** The 4th column (indices 3, 7, 11, 15) is (0, 0, 0, 1). *)
Definition affine (A : list F) : Prop :=
  elt A 3 = fzero ∧ elt A 7 = fzero ∧ elt A 11 = fzero ∧ elt A 15 = fone.

(** The elements outside the 4th column. *)
Definition outside_column4 (A : list F) : list F :=
  [elt A 0; elt A 1; elt A 2; elt A 4; elt A 5; elt A 6;
   elt A 8; elt A 9; elt A 10; elt A 12; elt A 13; elt A 14].

(** A call of one of the four methods, results discarded. *)
Inductive call : Type :=
  | call_identity (this : Matrix4)
  | call_multiply (this other : Matrix4)
  | call_setTranslation (this : Matrix4) (x y z : F)
  | call_getDeterminant (this : Matrix4).

Definition run_call (c : call) : M (F := F) unit :=
  match c with
  | call_identity this => identity this
  | call_multiply this other => multiply this other
  | call_setTranslation this x y z => setTranslation this x y z
  | call_getDeterminant this => _ <- getDeterminant this ;; ret tt
  end.

Fixpoint run_calls (cs : list call) : M (F := F) unit :=
  match cs with
  | [] => ret tt
  | c :: cs' => run_call c ;;; run_calls cs'
  end.

(** Every buffer of the store is a matrix: 16 cells, all written. *)
Definition all_matrices (h : heap F) : Prop :=
  ∀ p b, h !! p = Some b → ∃ A : list F, b = Some <$> A ∧ length A = 16.

(** The matrices a call names are allocated. *)
Definition live (h : heap F) (c : call) : Prop :=
  match c with
  | call_identity this => m this ∈ dom h
  | call_multiply this other => m this ∈ dom h ∧ m other ∈ dom h
  | call_setTranslation this _ _ _ => m this ∈ dom h
  | call_getDeterminant this => m this ∈ dom h
  end.

(** Construction followed at once by destruction. *)
Definition construct_destroy : M (F := F) unit :=
  p <- Matrix4_new ;;
  Matrix4_delete p.

(** Two constructions in a row, as at the start of [main]. *)
Definition construct_two : M (F := F) (Matrix4 * Matrix4) :=
  a <- Matrix4_new ;;
  b <- Matrix4_new ;;
  ret (a, b).

End Shapes.

Arguments call : clear implicits.

(** * Facts that hold for every scalar arithmetic *)

Section ProgramFacts.
Context {F : Type} `{Scalar F}.
Implicit Types (h : heap F) (p : loc) (b : buffer F) (A B : list F).

Lemma bind_Some {X Y} (c : M X) (k : X → M Y) h a h' :
  c h = Some (a, h') → bind c k h = k a h'.
Proof. intros Hc. unfold bind. by rewrite Hc. Qed.

Lemma bind_bind {X Y Z} (c : M X) (f : X → M Y) (g : Y → M Z) h :
  bind (bind c f) g h = bind c (λ a, bind (f a) g) h.
Proof. unfold bind. destruct (c h) as [[a h']|]; done. Qed.

Lemma bind_ret {X Y} (a : X) (k : X → M Y) h : bind (ret a) k h = k a h.
Proof. done. Qed.

Lemma load_Some p i x b h :
  h !! p = Some b → b !! i = Some (Some x) → load p i h = Some (x, h).
Proof. intros Hp Hi. unfold load. by rewrite Hp, Hi. Qed.

Lemma store_Some p i x b h :
  h !! p = Some b → i < length b →
  store p i x h = Some (tt, <[p := <[i := Some x]> b]> h).
Proof.
  intros Hp Hi. unfold store. rewrite Hp.
  destruct (decide (i < length b)); [done | lia].
Qed.

Lemma elt_lookup A i : i < length A → (Some <$> A) !! i = Some (Some (elt A i)).
Proof.
  intros Hi. rewrite list_lookup_fmap. unfold elt.
  destruct (lookup_lt_is_Some_2 A i Hi) as [x Hx]. by rewrite Hx.
Qed.

Lemma elt_lookup_plain A i : i < length A → A !! i = Some (elt A i).
Proof.
  intros Hi. unfold elt.
  destruct (lookup_lt_is_Some_2 A i Hi) as [x Hx]. by rewrite Hx.
Qed.

(** A matrix of 16 values is the list of its 16 elements. *)
Lemma sixteen A :
  length A = 16 →
  A = [elt A 0; elt A 1; elt A 2; elt A 3; elt A 4; elt A 5; elt A 6;
       elt A 7; elt A 8; elt A 9; elt A 10; elt A 11; elt A 12; elt A 13;
       elt A 14; elt A 15].
Proof.
  intros HA. do 16 (destruct A as [|? A]; [discriminate HA|]).
  destruct A; [reflexivity | discriminate HA].
Qed.

(** Loops: an invariant carried through [for_from]. *)
Lemma for_from_inv (I : nat → heap F → Prop) body lo n h :
  I lo h →
  (∀ i h1, lo ≤ i < lo + n → I i h1 →
     ∃ h2, body i h1 = Some (tt, h2) ∧ I (S i) h2) →
  ∃ h', for_from lo n body h = Some (tt, h') ∧ I (lo + n) h'.
Proof.
  revert lo h. induction n as [|n IH]; intros lo h H0 Hstep.
  - exists h. rewrite Nat.add_0_r. done.
  - destruct (Hstep lo h) as (h2 & Hb & H2); [lia | done |].
    destruct (IH (S lo) h2) as (h' & Hf & H'); [done | |].
    + intros i h1 Hi. apply Hstep. lia.
    + exists h'. split; [| by replace (lo + S n) with (S lo + n) by lia].
      simpl. by rewrite (bind_Some _ _ _ _ _ Hb).
Qed.

(** *** Stepping through a buffer that sits on top of the store *)

Lemma bind_store_insert {Y} p i x b h (k : unit → M Y) :
  i < length b →
  bind (store p i x) k (<[p := b]> h) = k tt (<[p := <[i := Some x]> b]> h).
Proof.
  intros Hi. erewrite bind_Some.
  2: { eapply store_Some; [apply lookup_insert_eq | done]. }
  by rewrite insert_insert_eq.
Qed.

Lemma bind_load_insert {Y} p i x b h (k : F → M Y) :
  b !! i = Some (Some x) →
  bind (load p i) k (<[p := b]> h) = k x (<[p := b]> h).
Proof.
  intros Hi. erewrite bind_Some; [done |].
  eapply load_Some; [apply lookup_insert_eq | done].
Qed.

Lemma store_insert p i x b h :
  i < length b →
  store p i x (<[p := b]> h) = Some (tt, <[p := <[i := Some x]> b]> h).
Proof.
  intros Hi. erewrite store_Some; [| apply lookup_insert_eq | done].
  by rewrite insert_insert_eq.
Qed.

(** *** identity and the constructor *)

Lemma identity_insert this b h :
  length b = 16 →
  identity this (<[m this := b]> h)
  = Some (tt, <[m this := Some <$> identity_matrix]> h).
Proof.
  intros Hb. do 16 (destruct b as [|? b]; [discriminate Hb|]).
  destruct b; [| discriminate Hb].
  unfold identity, for_upto. simpl for_from.
  repeat first
    [ rewrite bind_bind
    | rewrite bind_ret
    | rewrite bind_store_insert by (simpl; lia); simpl list_insert
    | erewrite bind_load_insert by reflexivity ].
  rewrite store_insert by (simpl; lia). reflexivity.
Qed.

Lemma identity_spec this b h :
  h !! m this = Some b → length b = 16 →
  identity this h = Some (tt, <[m this := Some <$> identity_matrix]> h).
Proof.
  intros Hp Hb. rewrite <- (insert_id h (m this) b Hp) at 1.
  rewrite (identity_insert this b h Hb). done.
Qed.

Lemma Matrix4_new_spec h :
  let p := fresh (dom h) in
  h !! p = None ∧
  Matrix4_new h = Some ({| m := p |}, <[p := Some <$> identity_matrix]> h).
Proof.
  intros p. assert (Hp : h !! p = None).
  { apply not_elem_of_dom, is_fresh. }
  split; [done |]. unfold Matrix4_new.
  erewrite bind_Some; [| reflexivity]. fold p.
  erewrite bind_Some.
  2: { apply (identity_insert {| m := p |}). apply length_replicate. }
  reflexivity.
Qed.

(** *** setTranslation *)

Lemma setTranslation_spec this x y z A h :
  holds h this A →
  setTranslation this x y z h
  = Some (tt, <[m this := Some <$> <[14 := z]> (<[13 := y]> (<[12 := x]> A))]> h).
Proof.
  intros [Hp HA]. rewrite <- (insert_id h (m this) _ Hp) at 1.
  unfold setTranslation.
  rewrite !bind_store_insert, store_insert
    by (rewrite ?length_insert, length_fmap; lia).
  by rewrite !list_fmap_insert.
Qed.

(** *** getDeterminant *)

Lemma getDeterminant_spec this A h :
  holds h this A →
  getDeterminant this h
  = Some (cofactor3 (elt A 0) (elt A 1) (elt A 2)
                    (elt A 4) (elt A 5) (elt A 6)
                    (elt A 8) (elt A 9) (elt A 10), h).
Proof.
  intros [Hp HA]. rewrite <- (insert_id h (m this) _ Hp) at 1.
  unfold getDeterminant.
  do 9 (erewrite bind_load_insert by (apply elt_lookup; lia)).
  unfold ret. by rewrite (insert_id h (m this) _ Hp).
Qed.

(** *** multiply *)

Section Multiply.
Variables (h0 : heap F) (temp : loc) (this other : Matrix4) (A B : list F).
Hypothesis Htemp : h0 !! temp = None.
Hypothesis HA : holds h0 this A.
Hypothesis HB : holds h0 other B.

Lemma temp_not_this : temp ≠ m this.
Proof using Htemp HA. destruct HA as [HA' _]. congruence. Qed.

Lemma temp_not_other : temp ≠ m other.
Proof using Htemp HB. destruct HB as [HB' _]. congruence. Qed.

(** The loop over [k] adds the four products to the cell [r*4+c]. *)
Lemma multiply_k_loop r c n : ∀ k0 T acc,
  k0 + n ≤ 4 → r < 4 → c < 4 → length T = 16 →
  T !! (r * 4 + c) = Some (Some acc) →
  for_from k0 n (λ k,
      t <- load temp (r * 4 + c) ;;
      a <- load (m this) (r * 4 + k) ;;
      b <- load (m other) (k * 4 + c) ;;
      store temp (r * 4 + c) (fadd t (fmul a b))) (<[temp := T]> h0)
  = Some (tt, <[temp := <[r * 4 + c :=
        Some (foldl (λ acc k, fadd acc (fmul (elt A (r * 4 + k)) (elt B (k * 4 + c))))
                    acc (seq k0 n))]> T]> h0).
Proof using Htemp HA HB.
  destruct HA as [HpA HlA], HB as [HpB HlB].
  induction n as [|n IH]; intros k0 T acc Hk Hr Hc HT Hacc.
  - simpl. unfold ret. by rewrite list_insert_id.
  - simpl for_from. rewrite bind_bind.
    erewrite bind_load_insert by exact Hacc.
    rewrite bind_bind. erewrite (bind_Some (load (m this) _)).
    2: { eapply load_Some.
         - rewrite lookup_insert_ne by apply temp_not_this. exact HpA.
         - apply elt_lookup. lia. }
    rewrite bind_bind. erewrite (bind_Some (load (m other) _)).
    2: { eapply load_Some.
         - rewrite lookup_insert_ne by apply temp_not_other. exact HpB.
         - apply elt_lookup. lia. }
    rewrite bind_store_insert by lia.
    erewrite IH.
    + by rewrite list_insert_insert_eq.
    + lia.
    + done.
    + done.
    + by rewrite length_insert.
    + apply list_lookup_insert_eq. lia.
Qed.

(** The loop over [c] fills row [r] of the temporary. *)
Lemma multiply_c_loop r n : ∀ c0 T,
  c0 + n ≤ 4 → r < 4 → length T = 16 →
  for_from c0 n (λ c,
      store temp (r * 4 + c) fzero ;;;
      for_upto 4 (λ k,
        t <- load temp (r * 4 + c) ;;
        a <- load (m this) (r * 4 + k) ;;
        b <- load (m other) (k * 4 + c) ;;
        store temp (r * 4 + c) (fadd t (fmul a b)))) (<[temp := T]> h0)
  = Some (tt, <[temp :=
        foldl (λ T c, <[r * 4 + c := Some (dot A B r c)]> T) T (seq c0 n)]> h0).
Proof using Htemp HA HB.
  induction n as [|n IH]; intros c0 T Hc Hr HT; [done |].
  simpl for_from. rewrite bind_bind, bind_store_insert by lia.
  unfold for_upto. erewrite bind_Some.
  2: { apply multiply_k_loop; [lia | done | lia | by rewrite length_insert |].
       apply list_lookup_insert_eq. lia. }
  rewrite list_insert_insert_eq.
  rewrite IH; [done | lia | done | by rewrite length_insert].
Qed.

(** The loop over [r] fills the temporary. *)
Lemma multiply_r_loop n : ∀ r0 T,
  r0 + n ≤ 4 → length T = 16 →
  for_from r0 n (λ r,
    for_upto 4 (λ c,
      store temp (r * 4 + c) fzero ;;;
      for_upto 4 (λ k,
        t <- load temp (r * 4 + c) ;;
        a <- load (m this) (r * 4 + k) ;;
        b <- load (m other) (k * 4 + c) ;;
        store temp (r * 4 + c) (fadd t (fmul a b))))) (<[temp := T]> h0)
  = Some (tt, <[temp :=
        foldl (λ T r, foldl (λ T c, <[r * 4 + c := Some (dot A B r c)]> T)
                            T (seq 0 4)) T (seq r0 n)]> h0).
Proof using Htemp HA HB.
  induction n as [|n IH]; intros r0 T Hr HT; [done |].
  simpl for_from. unfold for_upto at 1. erewrite bind_Some.
  2: { apply multiply_c_loop; [lia | lia | done]. }
  rewrite IH; [done | lia |]. simpl. by rewrite !length_insert.
Qed.

(** The copy loop moves the temporary into the buffer of [this]. *)
Lemma multiply_copy_loop P h1 n : ∀ i0 b,
  i0 + n ≤ 16 → length P = 16 → length b = 16 →
  for_from i0 n (λ i, x <- load temp i ;; store (m this) i x)
    (<[temp := Some <$> P]> (<[m this := b]> h1))
  = Some (tt, <[temp := Some <$> P]>
                (<[m this := foldl (λ b i, <[i := Some (elt P i)]> b) b (seq i0 n)]> h1)).
Proof using Htemp HA.
  induction n as [|n IH]; intros i0 b Hi HP Hb; [done |].
  simpl for_from. rewrite bind_bind.
  erewrite bind_load_insert by (apply elt_lookup; lia).
  erewrite bind_Some.
  2: { eapply store_Some.
       - rewrite lookup_insert_ne by apply temp_not_this. apply lookup_insert_eq.
       - lia. }
  rewrite insert_insert_ne by (apply not_eq_sym, temp_not_this).
  rewrite insert_insert_eq.
  rewrite IH; [done | lia | done | by rewrite length_insert].
Qed.

End Multiply.

Lemma multiply_spec this other A B h :
  holds h this A → holds h other B →
  multiply this other h = Some (tt, <[m this := Some <$> product A B]> h).
Proof.
  intros HA HB. unfold multiply.
  set (temp := fresh (dom h)).
  assert (Htemp : h !! temp = None) by apply not_elem_of_dom, is_fresh.
  erewrite bind_Some; [| reflexivity]. fold temp.
  unfold for_upto at 1. erewrite bind_Some.
  2: { apply (multiply_r_loop h temp this other A B); [done.. | lia |].
       apply length_replicate. }
  change (foldl _ (replicate 16 None) (seq 0 4)) with (Some <$> product A B).
  pose proof HA as [HpA HlA].
  rewrite <- (insert_id h (m this) _ HpA) at 1.
  unfold for_upto. erewrite bind_Some.
  2: { apply (multiply_copy_loop h temp this A); [done.. | lia | |].
       - unfold product. by rewrite length_fmap, length_seq.
       - by rewrite length_fmap. }
  unfold delete_array. rewrite lookup_insert_eq, delete_insert_eq.
  rewrite delete_id by (rewrite lookup_insert_ne; [done | congruence]).
  do 3 f_equal.
  assert (HlP : length (product A B) = 16).
  { unfold product. by rewrite length_fmap, length_seq. }
  generalize dependent (product A B). intros P HlP.
  rewrite (sixteen A HlA). simpl. symmetry.
  rewrite (sixteen P HlP) at 1. reflexivity.
Qed.

Lemma length_product A B : length (product A B) = 16.
Proof. unfold product. by rewrite length_fmap, length_seq. Qed.

Lemma product_lookup A B r c :
  r < 4 → c < 4 → product A B !! (r * 4 + c) = Some (dot A B r c).
Proof.
  intros Hr Hc. unfold product. rewrite list_lookup_fmap.
  rewrite lookup_seq_lt by lia. cbn -[Nat.div Nat.modulo dot].
  f_equal. f_equal.
  - rewrite Nat.div_add_l by lia. rewrite Nat.div_small by lia. lia.
  - rewrite Nat.add_comm, Nat.Div0.mod_add. by apply Nat.mod_small.
Qed.


(** The four-term sum that [multiply] accumulates for the cell (r, c),
    written out. *)
Lemma dot_unfold (A B : list F) r c :
  dot A B r c
  = fadd (fadd (fadd (fadd fzero
        (fmul (elt A (r * 4 + 0)) (elt B (0 * 4 + c))))
        (fmul (elt A (r * 4 + 1)) (elt B (1 * 4 + c))))
        (fmul (elt A (r * 4 + 2)) (elt B (2 * 4 + c))))
        (fmul (elt A (r * 4 + 3)) (elt B (3 * 4 + c))).
Proof. reflexivity. Qed.


End ProgramFacts.

(** * Multiplying by the identity matrix

    The sixteen sums are simplified under five laws of the scalars, laws
    that binary32 has on its finite values (with [nz] turning -0.0 into
    +0.0) and that exact arithmetic has everywhere. *)

Section IdentityLaws.
Context {F : Type} `{Scalar F}.
Variables (ok zero : F → Prop) (nz : F → F).
Hypothesis mul_one_l : ∀ x, ok x → fmul fone x = x.
Hypothesis mul_one_r : ∀ x, ok x → fmul x fone = x.
Hypothesis mul_zero_l : ∀ x, ok x → zero (fmul fzero x).
Hypothesis mul_zero_r : ∀ x, ok x → zero (fmul x fzero).
Hypothesis add_zero_zero : ∀ z, zero z → fadd fzero z = fzero.
Hypothesis add_zero_l : ∀ x, ok x → fadd fzero x = nz x.
Hypothesis add_zero_r : ∀ x z, ok x → zero z → fadd (nz x) z = nz x.

Ltac absorb :=
  repeat first
    [ rewrite mul_one_l by assumption
    | rewrite mul_one_r by assumption
    | rewrite add_zero_zero by (first [apply mul_zero_l | apply mul_zero_r]; assumption)
    | rewrite add_zero_l by assumption
    | rewrite add_zero_r
        by (first [assumption | apply mul_zero_l; assumption | apply mul_zero_r; assumption]) ];
  reflexivity.

Lemma Forall_sixteen (P : F → Prop) (x0 x1 x2 x3 x4 x5 x6 x7 x8 x9 x10 x11 x12 x13 x14 x15 : F) :
  Forall P [x0; x1; x2; x3; x4; x5; x6; x7; x8; x9; x10; x11; x12; x13; x14; x15] →
  (P x0 ∧ P x1 ∧ P x2 ∧ P x3) ∧ (P x4 ∧ P x5 ∧ P x6 ∧ P x7)
  ∧ (P x8 ∧ P x9 ∧ P x10 ∧ P x11) ∧ (P x12 ∧ P x13 ∧ P x14 ∧ P x15).
Proof. intros HP. repeat (apply Forall_cons in HP as [? HP]). tauto. Qed.

Lemma product_identity_l (N : list F) :
  length N = 16 → Forall ok N → product identity_matrix N = nz <$> N.
Proof using All.
  intros HN Hok. do 16 (destruct N as [|? N]; [discriminate HN |]).
  destruct N; [clear HN | discriminate HN].
  apply Forall_sixteen in Hok as ((?&?&?&?)&(?&?&?&?)&(?&?&?&?)&(?&?&?&?)).
  cbv [product dot elt identity_matrix foldl fmap list_fmap seq Nat.div Nat.modulo
       Nat.divmod fst snd Nat.sub Nat.add Nat.mul lookup list_lookup default
       from_option id].
  repeat (apply (f_equal2 cons); [absorb |]). reflexivity.
Qed.

Lemma product_identity_r (N : list F) :
  length N = 16 → Forall ok N → product N identity_matrix = nz <$> N.
Proof using All.
  intros HN Hok. do 16 (destruct N as [|? N]; [discriminate HN |]).
  destruct N; [clear HN | discriminate HN].
  apply Forall_sixteen in Hok as ((?&?&?&?)&(?&?&?&?)&(?&?&?&?)&(?&?&?&?)).
  cbv [product dot elt identity_matrix foldl fmap list_fmap seq Nat.div Nat.modulo
       Nat.divmod fst snd Nat.sub Nat.add Nat.mul lookup list_lookup default
       from_option id].
  repeat (apply (f_equal2 cons); [absorb |]). reflexivity.
Qed.

End IdentityLaws.

(** * Products of three matrices *)

Section Triple.
Context {F : Type} `{Scalar F}.

Lemma holds_insert (h : heap F) (this : Matrix4) (A : list F) :
  length A = 16 → holds (<[m this := Some <$> A]> h) this A.
Proof. intros HA. split; [apply lookup_insert_eq | done]. Qed.

Lemma holds_insert_ne (h : heap F) (this that : Matrix4) (A B : list F) :
  m this ≠ m that → holds h that B → holds (<[m this := Some <$> A]> h) that B.
Proof. intros Hne [HB Hl]. split; [by rewrite lookup_insert_ne | done]. Qed.

Lemma triple_left_spec (h : heap F) a b c A B C :
  holds h a A → holds h b B → holds h c C → m a ≠ m c →
  triple_left a b c h
  = Some (tt, <[m a := Some <$> product (product A B) C]> h).
Proof.
  intros HA HB HC Hac. unfold triple_left.
  erewrite bind_Some by (by apply multiply_spec).
  erewrite multiply_spec.
  - by rewrite insert_insert_eq.
  - apply holds_insert, length_product.
  - by apply holds_insert_ne.
Qed.

Lemma triple_right_spec (h : heap F) a b c A B C :
  holds h a A → holds h b B → holds h c C → m a ≠ m b →
  triple_right a b c h
  = Some (tt, <[m a := Some <$> product A (product B C)]>
                (<[m b := Some <$> product B C]> h)).
Proof.
  intros HA HB HC Hab. unfold triple_right.
  erewrite bind_Some by (by apply multiply_spec).
  erewrite multiply_spec; [done | |].
  - apply holds_insert_ne; [congruence | done].
  - apply holds_insert, length_product.
Qed.

End Triple.

(** Over the integers the two products are the same matrix. *)
Lemma product_assoc_Z (A B C : list Z) :
  length A = 16 → length B = 16 → length C = 16 →
  product (product A B) C = product A (product B C).
Proof.
  intros HA HB HC.
  do 16 (destruct A as [|? A]; [discriminate HA |]).
  destruct A; [clear HA | discriminate HA].
  do 16 (destruct B as [|? B]; [discriminate HB |]).
  destruct B; [clear HB | discriminate HB].
  do 16 (destruct C as [|? C]; [discriminate HC |]).
  destruct C; [clear HC | discriminate HC].
  cbv [product dot elt identity_matrix foldl fmap list_fmap seq Nat.div Nat.modulo
       Nat.divmod fst snd Nat.sub Nat.add Nat.mul lookup list_lookup default
       from_option id fadd fmul fzero exactZ].
  repeat (apply (f_equal2 cons); [ring |]). reflexivity.
Qed.

(** * Determinants in exact arithmetic *)

Lemma det_equal_rows_Z (a b c g h i : Z) :
  cofactor3 a b c a b c g h i = 0%Z
  ∧ cofactor3 a b c g h i a b c = 0%Z
  ∧ cofactor3 g h i a b c a b c = 0%Z.
Proof.
  cbv [cofactor3 det2 fadd fsub fmul exactZ]. repeat split; ring.
Qed.

(** * binary32 *)

Section Binary32.

Lemma mul_two23 mx : (8388608 * mx)%positive = shl23 mx.
Proof. reflexivity. Qed.

Lemma digits_shl23 mx :
  Zpos (digits2_pos (shl23 mx)) = (Zpos (digits2_pos mx) + 23)%Z.
Proof. unfold shl23. simpl digits2_pos. lia. Qed.

Lemma shr_shl23 mx :
  SpecFloat.iter_pos shr_1 23
    {| shr_m := Zpos (shl23 mx); shr_r := false; shr_s := false |}
  = {| shr_m := Zpos mx; shr_r := false; shr_s := false |}.
Proof. reflexivity. Qed.

(** A mantissa shifted left by 23 bits rounds back to itself: the 23 bits
    that the rounding drops are zeros. *)
Lemma round_shl23 s mx ex :
  bounded prec32 emax32 mx ex = true →
  binary_round_aux prec32 emax32 s (Zpos (shl23 mx)) (ex - 23) loc_Exact
  = S754_finite s mx ex.
Proof.
  intros Hb. unfold bounded in Hb. apply andb_true_iff in Hb as [Hc He].
  unfold canonical_mantissa in Hc. apply Z.eqb_eq in Hc.
  unfold binary_round_aux, shr_fexp. unfold Zdigits2 at 1.
  rewrite digits_shl23.
  replace (Z.pos (digits2_pos mx) + 23 + (ex - 23))%Z
    with (Z.pos (digits2_pos mx) + ex)%Z by lia.
  rewrite Hc. replace (ex - (ex - 23))%Z with 23%Z by lia.
  cbn [shr shr_record_of_loc]. rewrite shr_shl23.
  cbn [shr_m loc_of_shr_record round_nearest_even Zdigits2 shr_record_of_loc].
  replace (ex - 23 + 23)%Z with ex by lia.
  rewrite Hc, Z.sub_diag. cbn [shr shr_m]. by rewrite He.
Qed.

Lemma f32_mul_one_l x : is_finite32 x = true → fmul fone x = x.
Proof.
  destruct x as [s| | |s mx ex]; try done. intros Hb.
  cbn [fmul fone binary32 SFmul xorb]. rewrite mul_two23.
  replace (-23 + ex)%Z with (ex - 23)%Z by lia. by apply round_shl23.
Qed.

Lemma f32_mul_one_r x : is_finite32 x = true → fmul x fone = x.
Proof.
  destruct x as [s| | |s mx ex]; try done.
  - by destruct s.
  - intros Hb. cbn [fmul fone binary32 SFmul]. rewrite xorb_false_r.
    rewrite Pos.mul_comm, mul_two23.
    replace (ex + -23)%Z with (ex - 23)%Z by lia. by apply round_shl23.
Qed.

Lemma f32_mul_zero_l x : is_finite32 x = true → is_zero32 (fmul fzero x) = true.
Proof. by destruct x. Qed.

Lemma f32_mul_zero_r x : is_finite32 x = true → is_zero32 (fmul x fzero) = true.
Proof. by destruct x. Qed.

Lemma f32_add_zero_zero z : is_zero32 z = true → fadd fzero z = fzero.
Proof. by destruct z as [[]| | |]. Qed.

Lemma f32_add_zero_l x : is_finite32 x = true → fadd fzero x = plus_zero x.
Proof. by destruct x as [[]| | |]. Qed.

Lemma f32_add_zero_r x z :
  is_finite32 x = true → is_zero32 z = true → fadd (plus_zero x) z = plus_zero x.
Proof. by destruct x as [[]| | |], z as [[]| | |]. Qed.

Lemma f32_product_identity_l (N : list spec_float) :
  length N = 16 → Forall (λ x, is_finite32 x = true) N →
  product identity_matrix N = plus_zero <$> N.
Proof.
  apply (product_identity_l (λ x, is_finite32 x = true)
           (λ z, is_zero32 z = true) plus_zero);
    auto using f32_mul_one_l, f32_mul_one_r, f32_mul_zero_l, f32_mul_zero_r,
      f32_add_zero_zero, f32_add_zero_l, f32_add_zero_r.
Qed.

Lemma f32_product_identity_r (N : list spec_float) :
  length N = 16 → Forall (λ x, is_finite32 x = true) N →
  product N identity_matrix = plus_zero <$> N.
Proof.
  apply (product_identity_r (λ x, is_finite32 x = true)
           (λ z, is_zero32 z = true) plus_zero);
    auto using f32_mul_one_l, f32_mul_one_r, f32_mul_zero_l, f32_mul_zero_r,
      f32_add_zero_zero, f32_add_zero_l, f32_add_zero_r.
Qed.

Lemma within_tolerance_nan_l tol y : ¬ within_tolerance tol S754_nan y.
Proof. unfold within_tolerance. simpl. tauto. Qed.

Lemma within_tolerance_infinity_l tol s y :
  ¬ within_tolerance tol (S754_infinity s) y.
Proof. unfold within_tolerance. simpl. tauto. Qed.

Lemma f32_eqb_plus_zero x : is_finite32 x = true → SFeqb (plus_zero x) x = true.
Proof.
  destruct x as [[]| | |s mx ex]; try done. intros _.
  unfold SFeqb, SFcompare, plus_zero.
  change (Pos.compare_cont Eq mx mx) with (Pos.compare mx mx).
  destruct s; by rewrite Z.compare_refl, Pos.compare_refl.
Qed.

End Binary32.

(** * Integers in binary32

    A product or a sum of two binary32 integers whose exact result is
    below 2^24 in magnitude is delivered without rounding: the mantissa
    that the operation forms is the canonical mantissa of the result
    shifted left, and the bits that rounding drops are zeros. *)

Section Integers32.
Local Open Scope Z_scope.

Lemma iter_pos_nat {A} (f : A → A) p x :
  SpecFloat.iter_pos f p x = Nat.iter (Pos.to_nat p) f x.
Proof.
  revert x. induction p as [p IH|p IH|]; intros x; cbn [SpecFloat.iter_pos].
  - rewrite !IH, Pos2Nat.inj_xI, <- Nat.iter_add, <- Nat.iter_succ_r.
    f_equal. lia.
  - rewrite !IH, Pos2Nat.inj_xO, <- Nat.iter_add. f_equal. lia.
  - reflexivity.
Qed.

Lemma Zpos_iter_xO k mx : Zpos (Nat.iter k xO mx) = Zpos mx * 2 ^ Z.of_nat k.
Proof.
  induction k as [|k IH]; [simpl; lia |].
  rewrite Nat2Z.inj_succ, Z.pow_succ_r by lia.
  rewrite Nat.iter_succ, Pos2Z.inj_xO, IH. lia.
Qed.

Lemma digits_iter_xO k mx :
  Zpos (digits2_pos (Nat.iter k xO mx)) = Zpos (digits2_pos mx) + Z.of_nat k.
Proof.
  induction k as [|k IH]; [simpl; lia |].
  rewrite Nat.iter_succ. cbn [digits2_pos]. lia.
Qed.

Lemma shr_iter_xO k mx :
  Nat.iter k shr_1 {| shr_m := Zpos (Nat.iter k xO mx); shr_r := false; shr_s := false |}
  = {| shr_m := Zpos mx; shr_r := false; shr_s := false |}.
Proof.
  induction k as [|k IH]; [reflexivity |].
  rewrite Nat.iter_succ_r. exact IH.
Qed.

Lemma pos_of_shift mx M k :
  0 <= k → Zpos M = Zpos mx * 2 ^ k → M = Nat.iter (Z.to_nat k) xO mx.
Proof.
  intros Hk HM. apply Pos2Z.inj. rewrite Zpos_iter_xO, Z2Nat.id by done. done.
Qed.

(** A mantissa that is a canonical one shifted left by [k] bits rounds
    back to it. *)
Lemma round_shifted s mx ex M k :
  bounded prec32 emax32 mx ex = true → 0 <= k → Zpos M = Zpos mx * 2 ^ k →
  binary_round_aux prec32 emax32 s (Zpos M) (ex - k) loc_Exact
  = S754_finite s mx ex.
Proof.
  intros Hb Hk HM. apply (pos_of_shift mx M k Hk) in HM. subst M.
  unfold bounded in Hb. apply andb_true_iff in Hb as [Hc He].
  unfold canonical_mantissa in Hc. apply Z.eqb_eq in Hc.
  unfold binary_round_aux, shr_fexp. unfold Zdigits2 at 1.
  rewrite digits_iter_xO, Z2Nat.id by done.
  replace (Z.pos (digits2_pos mx) + k + (ex - k)) with (Z.pos (digits2_pos mx) + ex) by lia.
  rewrite Hc. replace (ex - (ex - k)) with k by lia.
  assert (Hshr : shr (shr_record_of_loc (Zpos (Nat.iter (Z.to_nat k) xO mx)) loc_Exact)
                     (ex - k) k
                 = ({| shr_m := Zpos mx; shr_r := false; shr_s := false |}, ex)).
  { destruct k as [|p|p]; [| |lia].
    - simpl. f_equal. lia.
    - cbn [shr shr_record_of_loc]. rewrite iter_pos_nat.
      rewrite Z2Nat.inj_pos, shr_iter_xO. f_equal. lia. }
  rewrite Hshr.
  cbn [shr_m loc_of_shr_record round_nearest_even Zdigits2 shr_record_of_loc].
  rewrite Hc, Z.sub_diag. cbn [shr shr_m]. by rewrite He.
Qed.

(** [digits2_pos p] is the number of bits of [p]. *)
Lemma digits_bounds p :
  2 ^ (Zpos (digits2_pos p) - 1) <= Zpos p < 2 ^ Zpos (digits2_pos p).
Proof.
  induction p as [p IH|p IH|]; cbn [digits2_pos]; [| |simpl; lia].
  - rewrite Pos2Z.inj_succ.
    replace (Z.succ (Zpos (digits2_pos p)) - 1) with (Z.succ (Zpos (digits2_pos p) - 1)) by lia.
    rewrite !Z.pow_succ_r by lia. lia.
  - rewrite Pos2Z.inj_succ.
    replace (Z.succ (Zpos (digits2_pos p)) - 1) with (Z.succ (Zpos (digits2_pos p) - 1)) by lia.
    rewrite !Z.pow_succ_r by lia. lia.
Qed.

Lemma digits_le p q : Zpos p <= Zpos q → Zpos (digits2_pos p) <= Zpos (digits2_pos q).
Proof.
  intros Hpq. pose proof (digits_bounds p) as [Hp _].
  pose proof (digits_bounds q) as [_ Hq].
  assert (Hlt : 2 ^ (Zpos (digits2_pos p) - 1) < 2 ^ Zpos (digits2_pos q)) by lia.
  apply Z.pow_lt_mono_r_iff in Hlt; lia.
Qed.

Lemma digits_le_24 p : Zpos p < 2 ^ 24 → Zpos (digits2_pos p) <= 24.
Proof.
  intros Hp. pose proof (digits_bounds p) as [Hl _].
  assert (Hlt : 2 ^ (Zpos (digits2_pos p) - 1) < 2 ^ 24) by lia.
  apply Z.pow_lt_mono_r_iff in Hlt; lia.
Qed.


Lemma int_mantissa_value n :
  Zpos n < 2 ^ 24 → Zpos (int_mantissa n) = Zpos n * 2 ^ (- int_exponent n).
Proof.
  intros Hn. pose proof (digits_le_24 n Hn). unfold int_mantissa.
  rewrite Zpos_iter_xO, Z2Nat.id; [done | unfold int_exponent; lia].
Qed.

Lemma float_of_pos_bounded n :
  Zpos n < 2 ^ 24 → bounded prec32 emax32 (int_mantissa n) (int_exponent n) = true.
Proof.
  intros Hn. pose proof (digits_le_24 n Hn).
  unfold bounded, canonical_mantissa. apply andb_true_iff. split.
  - apply Z.eqb_eq. unfold int_mantissa. rewrite digits_iter_xO.
    unfold int_exponent, fexp, emin, prec32, emax32.
    rewrite Z2Nat.id by lia. lia.
  - apply Z.leb_le. unfold int_exponent, prec32, emax32. lia.
Qed.

(** A mantissa [M] at exponent [E] that stands for the integer [n]. *)
Lemma round_integer s n M E :
  Zpos n < 2 ^ 24 → E <= int_exponent n → Zpos M = Zpos n * 2 ^ (- E) →
  binary_round_aux prec32 emax32 s (Zpos M) E loc_Exact = float_of_pos s n.
Proof.
  intros Hn HE HM. pose proof (digits_le_24 n Hn).
  replace E with (int_exponent n - (int_exponent n - E)) at 1 by lia.
  apply round_shifted.
  - by apply float_of_pos_bounded.
  - lia.
  - rewrite int_mantissa_value, HM by done. rewrite <- Z.mul_assoc.
    rewrite <- Z.pow_add_r by (unfold int_exponent in *; lia).
    do 2 f_equal. lia.
Qed.

Lemma digits_of_shifted n M k :
  0 <= k → Zpos M = Zpos n * 2 ^ k →
  Zpos (digits2_pos M) = Zpos (digits2_pos n) + k.
Proof.
  intros Hk HM. apply (pos_of_shift n M k Hk) in HM. subst M.
  by rewrite digits_iter_xO, Z2Nat.id.
Qed.

Lemma Zpos_iter_pos_xO M p : Zpos (Pos.iter xO M p) = Zpos M * 2 ^ Zpos p.
Proof.
  transitivity (Zpos (Nat.iter (Pos.to_nat p) xO M)).
  - f_equal. apply Pos2Nat.inj_iter.
  - by rewrite Zpos_iter_xO, positive_nat_Z.
Qed.

Lemma normalize_integer s n M E :
  Zpos n < 2 ^ 24 → E <= 0 → Zpos M = Zpos n * 2 ^ (- E) →
  binary_round prec32 emax32 s M E = float_of_pos s n.
Proof.
  intros Hn HE HM. pose proof (digits_le_24 n Hn).
  unfold binary_round.
  rewrite (digits_of_shifted n M (- E)) by (done || lia).
  replace (fexp prec32 emax32 (Zpos (digits2_pos n) + - E + E)) with (int_exponent n)
    by (unfold fexp, emin, int_exponent, prec32, emax32; lia).
  unfold shl_align.
  destruct (int_exponent n - E) as [|p|p] eqn:Hd.
  - apply round_integer; [done | lia | done].
  - apply round_integer; [done | lia | done].
  - apply round_integer; [done | lia |].
    rewrite Zpos_iter_pos_xO, HM, <- Z.mul_assoc, <- Z.pow_add_r by lia.
    do 2 f_equal. lia.
Qed.


Lemma f32_of_Z_canonical n : Z.abs n < 2 ^ 24 → f32_of_Z n = float_of_Z n.
Proof.
  intros Hn. destruct n as [|p|p]; [reflexivity | |];
    apply normalize_integer; try lia; rewrite Z.mul_1_r; done.
Qed.

Lemma mul_float_of_pos sa pa sb pb :
  Zpos (pa * pb) < 2 ^ 24 →
  fmul (float_of_pos sa pa) (float_of_pos sb pb) = float_of_pos (xorb sa sb) (pa * pb).
Proof.
  intros Hab.
  assert (Ha : Zpos pa < 2 ^ 24) by nia.
  assert (Hb : Zpos pb < 2 ^ 24) by nia.
  cbn [fmul binary32 SFmul float_of_pos]. apply round_integer; [done | |].
  - pose proof (digits_le pb (pa * pb)). pose proof (digits_le_24 pa Ha).
    unfold int_exponent. nia.
  - rewrite Pos2Z.inj_mul, !int_mantissa_value by done.
    pose proof (digits_le_24 pa Ha). pose proof (digits_le_24 pb Hb).
    replace (- (int_exponent pa + int_exponent pb))
      with (- int_exponent pa + - int_exponent pb) by lia.
    rewrite Z.pow_add_r by (unfold int_exponent; lia). rewrite Pos2Z.inj_mul. ring.
Qed.

Lemma stands_for_mul x a y b :
  stands_for x a → stands_for y b → Z.abs (a * b) < 2 ^ 24 →
  stands_for (fmul x y) (a * b).
Proof.
  intros [-> | [-> ->]] [-> | [-> ->]] Hab.
  - destruct a as [|pa|pa], b as [|pb|pb]; cbn [float_of_Z];
      try (left; reflexivity); try (right; split; reflexivity).
    all: left; rewrite mul_float_of_pos by (simpl in Hab; lia); reflexivity.
  - destruct a as [|pa|pa]; [right | right | left]; done.
  - destruct b as [|pb|pb]; [right | right | left]; done.
  - left. reflexivity.
Qed.

Lemma shl_align_value mx ex ez :
  ez <= ex → Zpos (fst (shl_align mx ex ez)) = Zpos mx * 2 ^ (ex - ez).
Proof.
  intros Hz. unfold shl_align. destruct (ez - ex) as [|p|p] eqn:Hd.
  - replace (ex - ez) with 0 by lia. simpl. lia.
  - lia.
  - cbn [fst]. rewrite Zpos_iter_pos_xO. do 2 f_equal. lia.
Qed.

Lemma cond_Zopp_mul s a b : cond_Zopp s a * b = cond_Zopp s (a * b).
Proof. destruct s; simpl; lia. Qed.


Lemma float_of_Z_signed s p : float_of_Z (signed s p) = float_of_pos s p.
Proof. by destruct s. Qed.

Lemma normalize_signed n E S :
  Z.abs n < 2 ^ 24 → E <= 0 → S = n * 2 ^ (- E) →
  binary_normalize prec32 emax32 S E false = float_of_Z n.
Proof.
  intros Hn HE ->. assert (Hpow : 0 < 2 ^ (- E)) by (apply Z.pow_pos_nonneg; lia).
  destruct n as [|p|p].
  - reflexivity.
  - destruct (Zpos p * 2 ^ (- E)) as [|M|M] eqn:HM; [lia | | lia].
    cbn [binary_normalize float_of_Z]. apply normalize_integer; [lia | done | lia].
  - destruct (Zneg p * 2 ^ (- E)) as [|M|M] eqn:HM; [lia | lia |].
    cbn [binary_normalize float_of_Z]. apply normalize_integer; [lia | done | lia].
Qed.

Lemma add_float_of_pos sa pa sb pb :
  Zpos pa < 2 ^ 24 → Zpos pb < 2 ^ 24 →
  Z.abs (signed sa pa + signed sb pb) < 2 ^ 24 →
  fadd (float_of_pos sa pa) (float_of_pos sb pb)
  = float_of_Z (signed sa pa + signed sb pb).
Proof.
  intros Ha Hb Hab. cbn [fadd binary32 SFadd float_of_pos].
  pose proof (digits_le_24 pa Ha). pose proof (digits_le_24 pb Hb).
  set (ez := Z.min (int_exponent pa) (int_exponent pb)).
  assert (Hez : ez <= int_exponent pa ∧ ez <= int_exponent pb ∧ ez <= 0)
    by (unfold ez, int_exponent; lia).
  apply normalize_signed; [done | lia |].
  rewrite !shl_align_value, !int_mantissa_value by (done || lia).
  rewrite <- !Z.mul_assoc, <- !Z.pow_add_r by (unfold int_exponent in *; lia).
  replace (- int_exponent pa + (int_exponent pa - ez)) with (- ez) by lia.
  replace (- int_exponent pb + (int_exponent pb - ez)) with (- ez) by lia.
  unfold signed. rewrite <- !cond_Zopp_mul. ring.
Qed.

Lemma add_float_of_Z a y b :
  Z.abs a < 2 ^ 24 → Z.abs b < 2 ^ 24 → Z.abs (a + b) < 2 ^ 24 →
  stands_for y b → fadd (float_of_Z a) y = float_of_Z (a + b).
Proof.
  intros Ha Hb Hab [-> | [-> ->]].
  - destruct a as [|pa|pa], b as [|pb|pb]; try reflexivity.
    + apply (add_float_of_pos false pa false pb); simpl in *; lia.
    + apply (add_float_of_pos false pa true pb); simpl in *; lia.
    + apply (add_float_of_pos true pa false pb); simpl in *; lia.
    + apply (add_float_of_pos true pa true pb); simpl in *; lia.
  - rewrite Z.add_0_r. by destruct a.
Qed.

Lemma stands_for_add x a y b :
  Z.abs a < 2 ^ 24 → Z.abs b < 2 ^ 24 → Z.abs (a + b) < 2 ^ 24 →
  stands_for x a → stands_for y b → stands_for (fadd x y) (a + b).
Proof.
  intros Ha Hb Hab [-> | [-> ->]] Hy.
  - left. by apply add_float_of_Z.
  - destruct Hy as [-> | [-> ->]].
    + destruct b; by left.
    + by right.
Qed.

Lemma f32_sub_add_opp (x y : spec_float) : fsub x y = fadd x (SFopp y).
Proof.
  destruct x as [[]|[]| |sx mx ex], y as [[]|[]| |sy my ey]; try reflexivity.
  cbn [fsub fadd binary32 SFsub SFadd SFopp]. f_equal.
  destruct sx, sy; simpl; lia.
Qed.

Lemma stands_for_opp y b : stands_for y b → stands_for (SFopp y) (- b).
Proof.
  intros [-> | [-> ->]].
  - destruct b; [right | left | left]; done.
  - by left.
Qed.

Lemma stands_for_sub x a y b :
  Z.abs a < 2 ^ 24 → Z.abs b < 2 ^ 24 → Z.abs (a - b) < 2 ^ 24 →
  stands_for x a → stands_for y b → stands_for (fsub x y) (a - b).
Proof.
  intros Ha Hb Hab Hx Hy. rewrite f32_sub_add_opp.
  apply (stands_for_add x a (SFopp y) (- b)); try done; try lia.
  by apply stands_for_opp.
Qed.

Lemma abs_mul_le x y a b :
  Z.abs x <= a → Z.abs y <= b → Z.abs (x * y) <= a * b.
Proof.
  intros Hx Hy. rewrite Z.abs_mul.
  apply Z.mul_le_mono_nonneg; lia.
Qed.

(** One step of the accumulation [temp += a * b] on integers. *)
Lemma add_mul_float_of_Z s x y :
  Z.abs s < 2 ^ 24 → Z.abs (x * y) < 2 ^ 24 → Z.abs (s + x * y) < 2 ^ 24 →
  fadd (float_of_Z s) (fmul (float_of_Z x) (float_of_Z y))
  = float_of_Z (s + x * y).
Proof.
  intros Hs Hxy Hsum. apply add_float_of_Z; try done.
  apply stands_for_mul; [by left | by left | done].
Qed.

Lemma elt_matrix_of_Z (A : list Z) i :
  Forall (λ x, Z.abs x < 2 ^ 24) A →
  elt (matrix_of_Z A) i = float_of_Z (elt A i).
Proof.
  intros HA. unfold elt, matrix_of_Z. rewrite list_lookup_fmap.
  destruct (A !! i) as [x|] eqn:Hx; [| reflexivity].
  simpl. apply f32_of_Z_canonical. by eapply Forall_lookup_1 in HA.
Qed.

Lemma elt_bound (A : list Z) (a : Z) i :
  0 <= a → Forall (λ x, Z.abs x <= a) A → Z.abs (elt A i) <= a.
Proof.
  intros Ha HA. unfold elt.
  destruct (A !! i) as [x|] eqn:Hx; [| simpl; lia].
  simpl. by eapply Forall_lookup_1 in HA.
Qed.

Lemma dot_exact (A B : list Z) (a b : Z) r c :
  0 <= a → 0 <= b → 4 * (a * b) < 2 ^ 24 →
  Forall (λ x, Z.abs x <= a) A → Forall (λ x, Z.abs x <= b) B →
  Forall (λ x, Z.abs x < 2 ^ 24) A → Forall (λ x, Z.abs x < 2 ^ 24) B →
  dot (matrix_of_Z A) (matrix_of_Z B) r c = float_of_Z (dot A B r c)
  ∧ Z.abs (dot A B r c) <= 4 * (a * b).
Proof.
  intros Ha Hb Hab HA HB HA' HB'. rewrite !dot_unfold.
  rewrite !elt_matrix_of_Z by done.
  pose proof (λ i j, abs_mul_le _ _ a b (elt_bound A a i Ha HA) (elt_bound B b j Hb HB)) as Hp.
  pose proof (Hp (r * 4 + 0)%nat (0 * 4 + c)%nat) as H0.
  pose proof (Hp (r * 4 + 1)%nat (1 * 4 + c)%nat) as H1.
  pose proof (Hp (r * 4 + 2)%nat (2 * 4 + c)%nat) as H2.
  pose proof (Hp (r * 4 + 3)%nat (3 * 4 + c)%nat) as H3.
  clear Hp.
  change (@fmul Z exactZ) with Z.mul in *.
  change (@fadd Z exactZ) with Z.add in *.
  change (@fzero Z exactZ) with 0 in *.
  change (@fzero spec_float binary32) with (float_of_Z 0).
  generalize dependent (a * b). intros ab Hab H0 H1 H2 H3.
  rewrite !add_mul_float_of_Z by lia. split; [reflexivity | lia].
Qed.

Lemma product_exact (A B : list Z) (a b : Z) :
  0 <= a < 2 ^ 24 → 0 <= b < 2 ^ 24 → 4 * (a * b) < 2 ^ 24 →
  Forall (λ x, Z.abs x <= a) A → Forall (λ x, Z.abs x <= b) B →
  product (matrix_of_Z A) (matrix_of_Z B) = matrix_of_Z (product A B)
  ∧ Forall (λ x, Z.abs x <= 4 * (a * b)) (product A B).
Proof.
  intros Ha Hb Hab HA HB.
  assert (HA' : Forall (λ x, Z.abs x < 2 ^ 24) A)
    by (eapply Forall_impl; [exact HA | simpl; lia]).
  assert (HB' : Forall (λ x, Z.abs x < 2 ^ 24) B)
    by (eapply Forall_impl; [exact HB | simpl; lia]).
  assert (Hdot : ∀ r c, dot (matrix_of_Z A) (matrix_of_Z B) r c = float_of_Z (dot A B r c)
                        ∧ Z.abs (dot A B r c) <= 4 * (a * b))
    by (intros r c; apply dot_exact; (done || lia)).
  split.
  - unfold matrix_of_Z at 3. unfold product. rewrite <- list_fmap_compose.
    apply list_fmap_ext. intros _ i _. unfold compose.
    destruct (Hdot (i `div` 4)%nat (i `mod` 4)%nat) as [-> Hbound].
    symmetry. apply f32_of_Z_canonical. lia.
  - unfold product. apply Forall_fmap, Forall_forall. intros i _.
    exact (proj2 (Hdot (i `div` 4)%nat (i `mod` 4)%nat)).
Qed.

Lemma product_assoc_f32 (A B C : list Z) :
  length A = 16%nat → length B = 16%nat → length C = 16%nat →
  Forall (λ x, Z.abs x <= 100) A → Forall (λ x, Z.abs x <= 100) B →
  Forall (λ x, Z.abs x <= 100) C →
  product (product (matrix_of_Z A) (matrix_of_Z B)) (matrix_of_Z C)
  = matrix_of_Z (product (product A B) C)
  ∧ product (matrix_of_Z A) (product (matrix_of_Z B) (matrix_of_Z C))
    = matrix_of_Z (product (product A B) C).
Proof.
  intros HlA HlB HlC HA HB HC.
  destruct (product_exact A B 100 100) as [HAB HABb]; [lia.. | done | done |].
  destruct (product_exact B C 100 100) as [HBC HBCb]; [lia.. | done | done |].
  destruct (product_exact (product A B) C (4 * (100 * 100)) 100) as [HL _];
    [lia.. | done | done |].
  destruct (product_exact A (product B C) 100 (4 * (100 * 100))) as [HR _];
    [lia.. | done | done |].
  split.
  - by rewrite HAB, HL.
  - by rewrite HBC, HR, product_assoc_Z.
Qed.

Lemma stands_for_float_of_Z n : stands_for (float_of_Z n) n.
Proof. by left. Qed.

Lemma stands_for_zero x : stands_for x 0 → is_zero32 x = true.
Proof. by intros [-> | [_ ->]]. Qed.

(** A 2x2 minor of integers of magnitude at most 100. *)
Lemma minor_exact (p q r s : Z) :
  Z.abs p <= 100 → Z.abs q <= 100 → Z.abs r <= 100 → Z.abs s <= 100 →
  stands_for (fsub (fmul (float_of_Z p) (float_of_Z s))
                   (fmul (float_of_Z q) (float_of_Z r)))
             (p * s - q * r)
  ∧ Z.abs (p * s - q * r) <= 20000.
Proof.
  intros Hp Hq Hr Hs.
  pose proof (abs_mul_le p s 100 100 Hp Hs) as Hps.
  pose proof (abs_mul_le q r 100 100 Hq Hr) as Hqr.
  clear Hp Hq Hr Hs.
  assert (Sps : stands_for (fmul (float_of_Z p) (float_of_Z s)) (p * s))
    by (apply stands_for_mul; [apply stands_for_float_of_Z.. | lia]).
  assert (Sqr : stands_for (fmul (float_of_Z q) (float_of_Z r)) (q * r))
    by (apply stands_for_mul; [apply stands_for_float_of_Z.. | lia]).
  generalize dependent (q * r). generalize dependent (p * s).
  intros ps Hps Sps qr Hqr Sqr. split; [| lia].
  apply stands_for_sub; [lia | lia | lia | done | done].
Qed.

(** An element times a minor. *)
Lemma cofactor_term_exact (x D : Z) (y : spec_float) :
  Z.abs x <= 100 → stands_for y D → Z.abs D <= 20000 →
  stands_for (fmul (float_of_Z x) y) (x * D) ∧ Z.abs (x * D) <= 2000000.
Proof.
  intros Hx Hy HD. pose proof (abs_mul_le x D 100 20000 Hx HD) as HxD.
  split; [| lia].
  apply stands_for_mul; [apply stands_for_float_of_Z | done | lia].
Qed.

(** On a block of integers of magnitude at most 100 the determinant is
    computed without rounding. *)
Lemma cofactor3_exact (a b c d e f g h i : Z) :
  Forall (λ x, Z.abs x <= 100) [a; b; c; d; e; f; g; h; i] →
  stands_for
    (cofactor3 (float_of_Z a) (float_of_Z b) (float_of_Z c)
               (float_of_Z d) (float_of_Z e) (float_of_Z f)
               (float_of_Z g) (float_of_Z h) (float_of_Z i))
    (cofactor3 a b c d e f g h i).
Proof.
  intros Hall.
  repeat (apply Forall_cons in Hall as [? Hall]). clear Hall.
  unfold cofactor3, det2.
  change (@fmul Z exactZ) with Z.mul.
  change (@fadd Z exactZ) with Z.add.
  change (@fsub Z exactZ) with Z.sub.
  destruct (minor_exact e f h i) as [M1 B1]; [done.. |].
  destruct (minor_exact d f g i) as [M2 B2]; [done.. |].
  destruct (minor_exact d e g h) as [M3 B3]; [done.. |].
  destruct (cofactor_term_exact a _ _ ltac:(eassumption) M1 B1) as [T1 C1].
  destruct (cofactor_term_exact b _ _ ltac:(eassumption) M2 B2) as [T2 C2].
  destruct (cofactor_term_exact c _ _ ltac:(eassumption) M3 B3) as [T3 C3].
  clear M1 M2 M3 B1 B2 B3.
  generalize dependent (c * (d * h - e * g)).
  generalize dependent (b * (d * i - f * g)).
  generalize dependent (a * (e * i - f * h)).
  intros t1 T1 C1 t2 T2 C2 t3 T3 C3.
  apply stands_for_add; [lia | lia | lia | | done].
  apply stands_for_sub; [lia | lia | lia | done | done].
Qed.

Lemma elt_matrix_of_Z_any (A : list Z) i :
  elt (matrix_of_Z A) i = f32_of_Z (elt A i).
Proof.
  unfold elt, matrix_of_Z. rewrite list_lookup_fmap.
  by destruct (A !! i).
Qed.

(** The determinant of a matrix of integers whose upper-left block has
    entries of magnitude at most 100. *)
Lemma cofactor3_matrix_of_Z (A : list Z) :
  Forall (λ x, Z.abs x <= 100)
    [elt A 0; elt A 1; elt A 2; elt A 4; elt A 5; elt A 6;
     elt A 8; elt A 9; elt A 10] →
  stands_for
    (cofactor3 (elt (matrix_of_Z A) 0) (elt (matrix_of_Z A) 1) (elt (matrix_of_Z A) 2)
               (elt (matrix_of_Z A) 4) (elt (matrix_of_Z A) 5) (elt (matrix_of_Z A) 6)
               (elt (matrix_of_Z A) 8) (elt (matrix_of_Z A) 9) (elt (matrix_of_Z A) 10))
    (cofactor3 (elt A 0) (elt A 1) (elt A 2) (elt A 4) (elt A 5) (elt A 6)
               (elt A 8) (elt A 9) (elt A 10)).
Proof.
  intros Hall. pose proof Hall as Hb.
  repeat (apply Forall_cons in Hb as [? Hb]). clear Hb.
  rewrite !elt_matrix_of_Z_any, !f32_of_Z_canonical by lia.
  by apply cofactor3_exact.
Qed.

End Integers32.

(** * Rounding in binary32

    [SpecFloat] rounds a product or a sum by shifting its exact mantissa
    right and rounding to nearest even on the bits shifted out.  The first
    two sections follow that computation on the integers; the next ones
    read it in the reals: a result that is a number is within a relative
    2^-24 of the exact value, or within 2^-150 of it in the subnormal
    range. *)

Section ShiftRight.
Local Open Scope Z_scope.

Lemma shr_1_spec st :
  0 <= shr_m st →
  shr_m st = 2 * shr_m (shr_1 st) + (if shr_r (shr_1 st) then 1 else 0)
  ∧ 0 <= shr_m (shr_1 st)
  ∧ shr_s (shr_1 st) = shr_r st || shr_s st.
Proof.
  destruct st as [mz r s]. cbn [shr_m]. intros Hm.
  destruct mz as [|[p|p|]|p]; cbn [shr_1 shr_m shr_r shr_s]; try lia.
  all: repeat split; try lia; by destruct r, s.
Qed.

(** What [k] one-bit shifts leave of a mantissa [M]: the quotient by 2^k,
    and, in the round and sticky bits, how the remainder compares with
    one half of 2^k. *)
Lemma shr_iter_spec (k : nat) (M : Z) :
  0 <= M →
  let st := Nat.iter k shr_1 {| shr_m := M; shr_r := false; shr_s := false |} in
  ∃ rem, 0 <= shr_m st ∧ 0 <= rem < 2 ^ Z.of_nat k
       ∧ M = shr_m st * 2 ^ Z.of_nat k + rem
       ∧ (shr_r st = true ↔ 2 ^ Z.of_nat k <= 2 * rem)
       ∧ (shr_s st = true ↔ rem ≠ 0 ∧ 2 * rem ≠ 2 ^ Z.of_nat k).
Proof.
  intros HM. induction k as [|k IH].
  - exists 0. cbn [Nat.iter nat_rect shr_m shr_r shr_s]. simpl.
    repeat split; try lia; try discriminate.
  - cbn zeta in *. rewrite Nat.iter_succ.
    set (st := Nat.iter k shr_1 _) in *.
    destruct IH as (rem & Hm & Hrem & HMeq & Hr & Hs).
    destruct (shr_1_spec st Hm) as (Hhalf & Hm' & Hs').
    rewrite Nat2Z.inj_succ, Z.pow_succ_r by lia.
    set (P := 2 ^ Z.of_nat k) in *.
    set (m' := shr_m st) in *. set (m'' := shr_m (shr_1 st)) in *.
    assert (Hmul : m' * P = m'' * (2 * P) + (if shr_r (shr_1 st) then P else 0)).
    { rewrite Hhalf. destruct (shr_r (shr_1 st)); ring. }
    rewrite Hs'. clear Hhalf Hs'.
    assert (HP : 0 < P) by (apply Z.pow_pos_nonneg; lia).
    generalize dependent (m'' * (2 * P)). generalize dependent (m' * P).
    intros m'P HMeq m''P Hmul.
    destruct (shr_r (shr_1 st)).
    + exists (P + rem).
      destruct (shr_r st), (shr_s st); intuition (try lia; try discriminate).
    + exists rem.
      destruct (shr_r st), (shr_s st); intuition (try lia; try discriminate).
Qed.

(** Rounding to nearest after [k] shifts is off by at most one half of
    2^k. *)
Lemma round_after_shift (k : nat) (M : Z) :
  0 <= M →
  let st := Nat.iter k shr_1 {| shr_m := M; shr_r := false; shr_s := false |} in
  let m1 := round_nearest_even (shr_m st) (loc_of_shr_record st) in
  0 <= m1 ∧ 2 * Z.abs (m1 * 2 ^ Z.of_nat k - M) <= 2 ^ Z.of_nat k.
Proof.
  intros HM st m1. subst m1.
  destruct (shr_iter_spec k M HM) as (rem & Hm & Hrem & HMeq & Hr & Hs).
  fold st in Hm, HMeq, Hr, Hs.
  destruct st as [m' r s]. cbn [shr_m shr_r shr_s] in *.
  set (P := 2 ^ Z.of_nat k) in *.
  assert (Hcases : ∀ m1, (m1 = m' ∧ 2 * rem <= P) ∨ (m1 = m' + 1 ∧ P <= 2 * rem) →
            0 <= m1 ∧ 2 * Z.abs (m1 * P - M) <= P).
  { intros m1 [[-> Hle] | [-> Hle]].
    - split; [done |]. rewrite HMeq. lia.
    - split; [lia |].
      assert (Hm1 : (m' + 1) * P = m' * P + P) by ring. rewrite Hm1, HMeq. lia. }
  apply Hcases.
  destruct r, s; cbn [loc_of_shr_record round_nearest_even].
  - right. split; [done |]. by apply Hr.
  - destruct (Z.even m'); [left | right]; (split; [done |]).
    + assert (¬ (rem ≠ 0 ∧ 2 * rem ≠ P)) by (intros H; by apply Hs in H).
      assert (P <= 2 * rem) by (by apply Hr). lia.
    + by apply Hr.
  - left. split; [done |].
    assert (¬ P <= 2 * rem) by (intros H; by apply Hr in H). lia.
  - left. split; [done |].
    assert (¬ P <= 2 * rem) by (intros H; by apply Hr in H). lia.
Qed.
End ShiftRight.

Section RoundAux.
Local Open Scope Z_scope.

Lemma Zdigits2_le_24 m1 : 0 <= m1 < 2 ^ 24 → Zdigits2 m1 <= 24.
Proof.
  intros Hm. destruct m1 as [|q|q]; [simpl; lia | | lia].
  apply digits_le_24. lia.
Qed.

(** The outcome of rounding the mantissa [M] at exponent [E]: a mantissa
    [m1] at exponent [e1], exact when no bit is dropped and otherwise off
    by at most one half of the last place kept; delivered as it is, or
    halved with the exponent raised when rounding carried into a 25th
    bit, or replaced by an infinity when the exponent is too large. *)
Lemma round_aux_cases (s : bool) (M : positive) (E : Z) :
  let e' := fexp prec32 emax32 (Zpos (digits2_pos M) + E) in
  ∃ m1 e1 : Z,
    0 <= m1
    ∧ ((e' <= E ∧ m1 = Zpos M ∧ e1 = E)
       ∨ (E < e' ∧ e1 = e'
          ∧ 2 * Z.abs (m1 * 2 ^ (e' - E) - Zpos M) <= 2 ^ (e' - E)))
    ∧ ((binary_round_aux prec32 emax32 s (Zpos M) E loc_Exact = S754_zero s
        ∧ m1 = 0)
       ∨ binary_round_aux prec32 emax32 s (Zpos M) E loc_Exact = S754_infinity s
       ∨ ∃ m2 e2,
           binary_round_aux prec32 emax32 s (Zpos M) E loc_Exact
           = S754_finite s m2 e2
           ∧ ((Zpos m2 = m1 ∧ e2 = e1) ∨ (m1 = 2 * Zpos m2 ∧ e2 = e1 + 1))).
Proof.
  intros e'. unfold binary_round_aux, shr_fexp.
  cbn [Zdigits2]. fold e'.
  destruct (e' - E) as [|p|p] eqn:Hn.
  - (* no shift *)
    exists (Zpos M), E. split; [lia |]. split; [left; lia |].
    cbn [shr shr_record_of_loc shr_m loc_of_shr_record round_nearest_even Zdigits2].
    fold e'. rewrite Hn. cbn [shr shr_m].
    destruct (E <=? emax32 - prec32); [right; right | right; left; done].
    exists M, E. split; [done |]. left. done.
  - (* [p] bits are dropped *)
    cbn [shr shr_record_of_loc]. rewrite iter_pos_nat.
    destruct (round_after_shift (Pos.to_nat p) (Zpos M)) as [Hm1 Herr]; [lia |].
    set (st := Nat.iter (Pos.to_nat p) shr_1 _) in *.
    set (m1 := round_nearest_even (shr_m st) (loc_of_shr_record st)) in *.
    rewrite positive_nat_Z in Herr.
    replace (E + Zpos p) with e' by lia.
    assert (He' : -149 <= e' ∧ Zpos (digits2_pos M) + E - 24 <= e')
      by (unfold e', fexp, emin, prec32, emax32; lia).
    assert (Hm24 : m1 <= 2 ^ 24).
    { pose proof (digits_bounds M) as [_ HM].
      assert (Hd : 2 ^ Zpos (digits2_pos M) <= 2 ^ (Zpos p + 24))
        by (apply Z.pow_le_mono_r; lia).
      rewrite Z.pow_add_r in Hd by lia.
      assert (HP : 0 < 2 ^ Zpos p) by (apply Z.pow_pos_nonneg; lia).
      apply Z.nlt_ge. intros Hgt.
      assert (Hmul : (2 ^ 24 + 1) * 2 ^ Zpos p <= m1 * 2 ^ Zpos p)
        by (apply Z.mul_le_mono_nonneg_r; lia).
      lia. }
    exists m1, e'. split; [done |]. split.
    { right. lia. }
    destruct (Z.eq_dec m1 (2 ^ 24)) as [Heq | Hne].
    + (* rounding carried into a 25th bit *)
      rewrite Heq. change (Zdigits2 (2 ^ 24)) with 25.
      replace (fexp prec32 emax32 (25 + e') - e') with 1
        by (unfold fexp, emin, prec32, emax32; lia).
      cbn [shr shr_record_of_loc SpecFloat.iter_pos shr_1 shr_m].
      change (2 ^ 24) with 16777216. cbn [shr_1 shr_m].
      destruct (e' + 1 <=? emax32 - prec32); [right; right | right; left; done].
      exists 8388608%positive, (e' + 1). split; [done |]. right. lia.
    + assert (Hd1 : Zdigits2 m1 <= 24) by (apply Zdigits2_le_24; lia).
      destruct (fexp prec32 emax32 (Zdigits2 m1 + e') - e') as [|q|q] eqn:Hn2.
      2: { unfold fexp, emin, prec32, emax32 in Hn2. lia. }
      all: cbn [shr shr_record_of_loc shr_m].
      all: destruct m1 as [|q1|q1]; [left; done | | lia].
      all: destruct (e' <=? emax32 - prec32); [right; right | right; left; done].
      all: exists q1, e'; split; [done |]; left; done.
  - (* no shift *)
    exists (Zpos M), E. split; [lia |]. split; [left; lia |].
    cbn [shr shr_record_of_loc shr_m loc_of_shr_record round_nearest_even Zdigits2].
    fold e'. rewrite Hn. cbn [shr shr_m].
    destruct (E <=? emax32 - prec32); [right; right | right; left; done].
    exists M, E. split; [done |]. left. done.
Qed.

End RoundAux.

Section RoundError.
Import Reals Lra.
Local Open Scope R_scope.

Lemma bpow_add a b : bpow (a + b) = bpow a * bpow b.
Proof. unfold bpow. apply powerRZ_add. lra. Qed.

Lemma bpow_pos e : 0 < bpow e.
Proof. unfold bpow. apply powerRZ_lt. lra. Qed.

Lemma bpow_IZR k : (0 <= k)%Z → bpow k = IZR (2 ^ k).
Proof.
  intros Hk. unfold bpow. rewrite <- (Z2Nat.id k Hk) at 1 2.
  by rewrite <- pow_powerRZ, pow_IZR.
Qed.

Lemma bpow_succ e : bpow (e + 1) = 2 * bpow e.
Proof. rewrite bpow_add. change (bpow 1) with (2 * 1). lra. Qed.

Lemma IZR_cond_Zopp s z : IZR (cond_Zopp s z) = (if s then -1 else 1) * IZR z.
Proof. destruct s; simpl; [rewrite opp_IZR |]; lra. Qed.

Lemma Rabs_sign (s : bool) z : Rabs ((if s then -1 else 1) * z) = Rabs z.
Proof.
  destruct s; [| by rewrite Rmult_1_l].
  replace (-1 * z) with (- z) by lra. apply Rabs_Ropp.
Qed.

(** The standard model of one rounding: the result, when it is a number,
    is within a relative 2^-24 of the exact value, or within 2^-150 of it
    in the subnormal range. *)
Lemma round_aux_error (s : bool) (M : positive) (E : Z) :
  is_number (binary_round_aux prec32 emax32 s (Zpos M) E loc_Exact) = true →
  Rabs (real32 (binary_round_aux prec32 emax32 s (Zpos M) E loc_Exact)
        - IZR (cond_Zopp s (Zpos M)) * bpow E)
  <= unit_roundoff * (IZR (Zpos M) * bpow E) + tiny.
Proof.
  intros Hnum.
  destruct (round_aux_cases s M E) as (m1 & e1 & Hm1 & Hfirst & Hres).
  set (x := binary_round_aux prec32 emax32 s (Zpos M) E loc_Exact) in *.
  pose proof (bpow_pos E) as HbE.
  assert (HM : 0 < IZR (Zpos M)) by (apply IZR_lt; lia).
  assert (Hu : 0 < unit_roundoff) by apply bpow_pos.
  assert (Ht : 0 < tiny) by apply bpow_pos.
  assert (Hv : 0 < IZR (Zpos M) * bpow E) by (by apply Rmult_lt_0_compat).
  assert (Huv : 0 < unit_roundoff * (IZR (Zpos M) * bpow E))
    by (by apply Rmult_lt_0_compat).
  assert (Hval : real32 x = (if s then -1 else 1) * (IZR m1 * bpow e1)).
  { destruct Hres as [[-> ->] | [Hinf | (m2 & e2 & -> & [[<- ->] | [-> ->]])]].
    - simpl. lra.
    - rewrite Hinf in Hnum. discriminate.
    - cbn [real32]. rewrite IZR_cond_Zopp. lra.
    - cbn [real32]. rewrite IZR_cond_Zopp, bpow_succ, mult_IZR. lra. }
  rewrite Hval, IZR_cond_Zopp.
  replace ((if s then -1 else 1) * (IZR m1 * bpow e1)
           - (if s then -1 else 1) * IZR (Zpos M) * bpow E)
    with ((if s then -1 else 1) * (IZR m1 * bpow e1 - IZR (Zpos M) * bpow E))
    by lra.
  rewrite Rabs_sign.
  destruct Hfirst as [(Hle & -> & ->) | (Hlt & -> & Herr)].
  - replace (IZR (Zpos M) * bpow E - IZR (Zpos M) * bpow E) with 0 by lra.
    rewrite Rabs_R0. lra.
  - set (e' := fexp prec32 emax32 (Zpos (digits2_pos M) + E)) in *.
    set (n := (e' - E)%Z) in *.
    assert (Hn : (0 < n)%Z) by (unfold n; lia).
    replace e' with (E + n)%Z at 1 by (unfold n; lia).
    rewrite bpow_add, (bpow_IZR n) by lia.
    replace (IZR m1 * (bpow E * IZR (2 ^ n)) - IZR (Zpos M) * bpow E)
      with (bpow E * IZR (m1 * 2 ^ n - Zpos M))
      by (rewrite minus_IZR, mult_IZR; lra).
    rewrite Rabs_mult, (Rabs_pos_eq (bpow E)) by lra.
    rewrite <- abs_IZR.
    assert (Hhalf : 2 * IZR (Z.abs (m1 * 2 ^ n - Zpos M)) <= IZR (2 ^ n)).
    { rewrite <- mult_IZR. by apply IZR_le. }
    assert (Hbound : bpow E * IZR (Z.abs (m1 * 2 ^ n - Zpos M)) <= bpow (e' - 1)).
    { replace (e' - 1)%Z with (E + n + -1)%Z by (unfold n; lia).
      rewrite !bpow_add, (bpow_IZR n) by lia.
      change (bpow (-1)) with (/ (2 * 1)).
      assert (0 <= IZR (2 ^ n)) by (apply IZR_le, Z.pow_nonneg; lia).
      nra. }
    apply (Rle_trans _ _ _ Hbound).
    pose proof (digits_bounds M) as [Hlow _].
    set (d := Zpos (digits2_pos M)) in *.
    destruct (Z_le_gt_dec (d + E - 24) (-149)) as [Hsub | Hnorm].
    + assert (e' = (-149)%Z) by (unfold e', fexp, emin, prec32, emax32; fold d; lia).
      replace (e' - 1)%Z with (-150)%Z by lia. fold tiny. lra.
    + assert (e' = (d + E - 24)%Z)
        by (unfold e', fexp, emin, prec32, emax32; fold d; lia).
      replace (e' - 1)%Z with (-24 + ((d - 1) + E))%Z by lia.
      rewrite !bpow_add, (bpow_IZR (d - 1)) by lia. fold unit_roundoff.
      assert (IZR (2 ^ (d - 1)) <= IZR (Zpos M)) by (by apply IZR_le).
      assert (0 < IZR (2 ^ (d - 1)))
        by (apply IZR_lt, Z.pow_pos_nonneg; lia).
      nra.
Qed.

End RoundError.

Section Operations.
Import Reals Lra.
Local Open Scope R_scope.

Lemma unit_roundoff_pos : 0 < unit_roundoff.
Proof. apply bpow_pos. Qed.

Lemma tiny_pos : 0 < tiny.
Proof. apply bpow_pos. Qed.

Lemma Rabs_signed s (M : positive) E :
  Rabs (IZR (cond_Zopp s (Zpos M)) * bpow E) = IZR (Zpos M) * bpow E.
Proof.
  rewrite IZR_cond_Zopp, Rmult_assoc, Rabs_sign.
  apply Rabs_pos_eq. pose proof (bpow_pos E).
  assert (0 < IZR (Zpos M)) by (apply IZR_lt; lia). nra.
Qed.

Lemma shl_align_real (M : positive) (E e'' : Z) :
  IZR (Zpos (fst (shl_align M E e''))) * bpow (snd (shl_align M E e''))
  = IZR (Zpos M) * bpow E.
Proof.
  unfold shl_align. destruct (e'' - E)%Z as [|p|p] eqn:Hd; try reflexivity.
  cbn [fst snd]. rewrite Zpos_iter_pos_xO, mult_IZR.
  replace E with (e'' + Zpos p)%Z by lia.
  rewrite bpow_add, (bpow_IZR (Zpos p)) by lia. lra.
Qed.

Lemma binary_round_error (s : bool) (M : positive) (E : Z) :
  is_number (binary_round prec32 emax32 s M E) = true →
  Rabs (real32 (binary_round prec32 emax32 s M E)
        - IZR (cond_Zopp s (Zpos M)) * bpow E)
  <= unit_roundoff * (IZR (Zpos M) * bpow E) + tiny.
Proof.
  unfold binary_round.
  pose proof (shl_align_real M E (fexp prec32 emax32 (Zpos (digits2_pos M) + E)))
    as Hal.
  destruct (shl_align M E _) as [mz ez]. cbn [fst snd] in Hal.
  intros Hnum. pose proof (round_aux_error s mz ez Hnum) as Herr.
  rewrite IZR_cond_Zopp in *. rewrite Rmult_assoc in *.
  by rewrite Hal in Herr.
Qed.

Lemma binary_normalize_error (S : Z) (E : Z) :
  is_number (binary_normalize prec32 emax32 S E false) = true →
  Rabs (real32 (binary_normalize prec32 emax32 S E false) - IZR S * bpow E)
  <= unit_roundoff * Rabs (IZR S * bpow E) + tiny.
Proof.
  pose proof unit_roundoff_pos. pose proof tiny_pos.
  destruct S as [|M|M]; cbn [binary_normalize].
  - intros _. cbn [real32]. rewrite Rmult_0_l, Rminus_0_r, Rabs_R0. lra.
  - intros Hnum. pose proof (binary_round_error false M E Hnum) as Herr.
    cbn [cond_Zopp] in Herr.
    rewrite (Rabs_pos_eq (IZR (Zpos M) * bpow E)); [done |].
    pose proof (bpow_pos E). assert (0 < IZR (Zpos M)) by (apply IZR_lt; lia). nra.
  - intros Hnum. pose proof (binary_round_error true M E Hnum) as Herr.
    cbn [cond_Zopp] in Herr. change (- Zpos M)%Z with (Zneg M) in Herr.
    replace (Rabs (IZR (Zneg M) * bpow E)) with (IZR (Zpos M) * bpow E); [done |].
    symmetry. apply (Rabs_signed true M E).
Qed.

(** One binary32 multiplication. *)
Lemma fmul_error (x y : spec_float) :
  is_number (fmul x y) = true →
  is_number x = true ∧ is_number y = true
  ∧ Rabs (real32 (fmul x y) - real32 x * real32 y)
    <= unit_roundoff * Rabs (real32 x * real32 y) + tiny.
Proof.
  pose proof unit_roundoff_pos. pose proof tiny_pos.
  destruct x as [sx|sx| |sx mx ex], y as [sy|sy| |sy my ey]; try discriminate.
  1-3: intros _; split; [done |]; split; [done |]; cbn [fmul binary32 SFmul real32];
       rewrite ?Rmult_0_l, ?Rmult_0_r, Rminus_0_r, Rabs_R0; lra.
  cbn [fmul binary32 SFmul]. intros Hnum. split; [done |]. split; [done |].
  pose proof (round_aux_error _ _ _ Hnum) as Herr.
  assert (Hexact : real32 (S754_finite sx mx ex) * real32 (S754_finite sy my ey)
                   = IZR (cond_Zopp (xorb sx sy) (Zpos (mx * my))) * bpow (ex + ey)).
  { cbn [real32]. rewrite !IZR_cond_Zopp, Pos2Z.inj_mul, mult_IZR, bpow_add.
    destruct sx, sy; simpl; lra. }
  rewrite Hexact, Rabs_signed. exact Herr.
Qed.

(** One binary32 addition. *)
Lemma fadd_error (x y : spec_float) :
  is_number (fadd x y) = true →
  is_number x = true ∧ is_number y = true
  ∧ Rabs (real32 (fadd x y) - (real32 x + real32 y))
    <= unit_roundoff * Rabs (real32 x + real32 y) + tiny.
Proof.
  pose proof unit_roundoff_pos as Hu. pose proof tiny_pos as Ht.
  assert (Hzero : ∀ v, Rabs (v - v) <= unit_roundoff * Rabs v + tiny).
  { intros v. rewrite Rminus_diag, Rabs_R0. pose proof (Rabs_pos v). nra. }
  destruct x as [sx|sx| |sx mx ex], y as [sy|sy| |sy my ey]; try discriminate;
    try (by destruct sx, sy).
  - intros _. split; [done |]. split; [done |].
    replace (real32 (fadd (S754_zero sx) (S754_zero sy))) with 0
      by (by destruct sx, sy).
    cbn [real32]. rewrite Rplus_0_l, Rminus_0_r, Rabs_R0. lra.
  - intros _. split; [done |]. split; [done |].
    cbn [fadd binary32 SFadd]. cbn [real32]. rewrite Rplus_0_l. apply Hzero.
  - intros _. split; [done |]. split; [done |].
    cbn [fadd binary32 SFadd]. cbn [real32]. rewrite Rplus_0_r. apply Hzero.
  - cbn [fadd binary32 SFadd]. intros Hnum. split; [done |]. split; [done |].
    pose proof (binary_normalize_error _ _ Hnum) as Herr.
    set (ez := Z.min ex ey) in *.
    assert (Hexact :
      IZR (cond_Zopp sx (Zpos (fst (shl_align mx ex ez)))
           + cond_Zopp sy (Zpos (fst (shl_align my ey ez)))) * bpow ez
      = real32 (S754_finite sx mx ex) + real32 (S754_finite sy my ey)).
    { rewrite plus_IZR, !IZR_cond_Zopp, !shl_align_value by (unfold ez; lia).
      rewrite !mult_IZR, <- !bpow_IZR by (unfold ez; lia). cbn [real32].
      rewrite !IZR_cond_Zopp.
      assert (Hx : bpow ex = bpow ez * bpow (ex - ez))
        by (rewrite <- bpow_add; f_equal; lia).
      assert (Hy : bpow ey = bpow ez * bpow (ey - ez))
        by (rewrite <- bpow_add; f_equal; lia).
      rewrite Hx, Hy. lra. }
    by rewrite Hexact in Herr.
Qed.

Lemma real32_opp y : real32 (SFopp y) = - real32 y.
Proof.
  destruct y as [s|s| |s my ey]; cbn [SFopp real32]; try lra.
  rewrite !IZR_cond_Zopp. destruct s; simpl; lra.
Qed.

Lemma is_number_opp y : is_number (SFopp y) = is_number y.
Proof. by destruct y. Qed.

(** One binary32 subtraction. *)
Lemma fsub_error (x y : spec_float) :
  is_number (fsub x y) = true →
  is_number x = true ∧ is_number y = true
  ∧ Rabs (real32 (fsub x y) - (real32 x - real32 y))
    <= unit_roundoff * Rabs (real32 x - real32 y) + tiny.
Proof.
  rewrite f32_sub_add_opp. intros Hnum.
  destruct (fadd_error _ _ Hnum) as (Hx & Hy & Herr).
  rewrite is_number_opp in Hy. rewrite real32_opp in Herr.
  split; [done |]. split; [done |]. exact Herr.
Qed.

End Operations.

(** * Rounding errors of sums of products *)

Section Propagation.
Import Reals Lra.
Local Open Scope R_scope.

Lemma unit_roundoff_eq : unit_roundoff = / 16777216.
Proof.
  unfold unit_roundoff, bpow. cbn [powerRZ]. f_equal.
  change 2 with (IZR 2). rewrite pow_IZR. f_equal.
Qed.

Lemma abs_le_inv x b : Rabs x <= b → - b <= x <= b.
Proof. unfold Rabs. destruct (Rcase_abs x); lra. Qed.

Lemma abs_bounds x : 0 <= Rabs x ∧ - Rabs x <= x <= Rabs x.
Proof. unfold Rabs. destruct (Rcase_abs x); lra. Qed.

Lemma dot4_error_real (q0 q1 q2 q3 p0 p1 p2 p3 s1 s2 s3 s4 : R) :
  Rabs (p0 - q0) <= unit_roundoff * Rabs q0 + tiny →
  Rabs (p1 - q1) <= unit_roundoff * Rabs q1 + tiny →
  Rabs (p2 - q2) <= unit_roundoff * Rabs q2 + tiny →
  Rabs (p3 - q3) <= unit_roundoff * Rabs q3 + tiny →
  Rabs (s1 - (0 + p0)) <= unit_roundoff * Rabs (0 + p0) + tiny →
  Rabs (s2 - (s1 + p1)) <= unit_roundoff * Rabs (s1 + p1) + tiny →
  Rabs (s3 - (s2 + p2)) <= unit_roundoff * Rabs (s2 + p2) + tiny →
  Rabs (s4 - (s3 + p3)) <= unit_roundoff * Rabs (s3 + p3) + tiny →
  Rabs (s4 - (q0 + q1 + q2 + q3))
  <= 6 * unit_roundoff * (Rabs q0 + Rabs q1 + Rabs q2 + Rabs q3) + 9 * tiny.
Proof.
  rewrite unit_roundoff_eq. pose proof tiny_pos as Heta.
  generalize dependent tiny. intros eta Heta.
  intros Hp0 Hp1 Hp2 Hp3 Hs1 Hs2 Hs3 Hs4.
  apply abs_le_inv in Hp0, Hp1, Hp2, Hp3, Hs1, Hs2, Hs3, Hs4.
  pose proof (abs_bounds q0). pose proof (abs_bounds q1).
  pose proof (abs_bounds q2). pose proof (abs_bounds q3).
  generalize dependent (Rabs q0). generalize dependent (Rabs q1).
  generalize dependent (Rabs q2). generalize dependent (Rabs q3).
  intros a3 Hp3 Ha3 a2 Hp2 Ha2 a1 Hp1 Ha1 a0 Hp0 Ha0.
  assert (T1 : Rabs (0 + p0) <= 101 / 100 * (a0 + a1 + a2 + a3) + 9 * eta)
    by (apply Rabs_le; lra).
  assert (T2 : Rabs (s1 + p1) <= 101 / 100 * (a0 + a1 + a2 + a3) + 9 * eta)
    by (apply Rabs_le; lra).
  assert (T3 : Rabs (s2 + p2) <= 101 / 100 * (a0 + a1 + a2 + a3) + 9 * eta)
    by (apply Rabs_le; lra).
  assert (T4 : Rabs (s3 + p3) <= 101 / 100 * (a0 + a1 + a2 + a3) + 9 * eta)
    by (apply Rabs_le; lra).
  apply Rabs_le; lra.
Qed.

End Propagation.

Section Propagation2.
Import Reals Lra.
Local Open Scope R_scope.

Lemma abs_sum4 (p0 p1 p2 p3 : R) :
  Rabs (p0 + p1 + p2 + p3) <= Rabs p0 + Rabs p1 + Rabs p2 + Rabs p3.
Proof.
  pose proof (abs_bounds p0). pose proof (abs_bounds p1).
  pose proof (abs_bounds p2). pose proof (abs_bounds p3).
  apply Rabs_le. lra.
Qed.

(** The value computed by [dot] against the exact sum of the four exact
    products of the values of its operands. *)
Lemma dot_error (X Y : list spec_float) (r c : nat) :
  is_number (dot X Y r c) = true →
  (∀ k, (k < 4)%nat →
        is_number (elt X (r * 4 + k)) = true
        ∧ is_number (elt Y (k * 4 + c)) = true)
  ∧ Rabs (real32 (dot X Y r c)
          - rsum4 (λ k, real32 (elt X (r * 4 + k)) * real32 (elt Y (k * 4 + c))))
    <= 6 * unit_roundoff
         * rsum4 (λ k, Rabs (real32 (elt X (r * 4 + k)))
                       * Rabs (real32 (elt Y (k * 4 + c))))
       + 9 * tiny.
Proof.
  rewrite dot_unfold. intros H4.
  destruct (fadd_error _ _ H4) as (H3 & Hm3 & E4).
  destruct (fadd_error _ _ H3) as (H2 & Hm2 & E3).
  destruct (fadd_error _ _ H2) as (H1 & Hm1 & E2).
  destruct (fadd_error _ _ H1) as (_ & Hm0 & E1).
  destruct (fmul_error _ _ Hm0) as (Hx0 & Hy0 & G0).
  destruct (fmul_error _ _ Hm1) as (Hx1 & Hy1 & G1).
  destruct (fmul_error _ _ Hm2) as (Hx2 & Hy2 & G2).
  destruct (fmul_error _ _ Hm3) as (Hx3 & Hy3 & G3).
  split.
  - intros k Hk. destruct k as [|[|[|[|k]]]]; try done. lia.
  - unfold rsum4. rewrite <- !Rabs_mult.
    change (real32 (@fzero _ binary32)) with 0 in E1.
    exact (dot4_error_real _ _ _ _ _ _ _ _ _ _ _ _ G0 G1 G2 G3 E1 E2 E3 E4).
Qed.

Lemma scale_error (x m M c : R) :
  Rabs (x - m) <= 6 * unit_roundoff * M + 9 * tiny → Rabs m <= M →
  Rabs (x * c - m * c) <= 6 * unit_roundoff * (M * Rabs c) + 9 * (tiny * Rabs c)
  ∧ Rabs x * Rabs c
    <= (1 + 6 * unit_roundoff) * (M * Rabs c) + 9 * (tiny * Rabs c)
  ∧ 0 <= M * Rabs c ∧ 0 <= tiny * Rabs c ∧ Rabs (m * c) <= M * Rabs c.
Proof.
  intros Hx Hm. pose proof (Rabs_pos c) as Hc. pose proof tiny_pos as Ht.
  pose proof (Rabs_pos m) as Hm0.
  assert (Hx' : Rabs x <= (1 + 6 * unit_roundoff) * M + 9 * tiny).
  { rewrite unit_roundoff_eq in *.
    pose proof (abs_bounds m). apply abs_le_inv in Hx. apply Rabs_le. lra. }
  split; [| split; [| split; [| split]]].
  - replace (x * c - m * c) with ((x - m) * c) by ring. rewrite Rabs_mult.
    apply (Rmult_le_compat_r _ _ _ Hc) in Hx. lra.
  - apply (Rmult_le_compat_r _ _ _ Hc) in Hx'. lra.
  - apply Rmult_le_pos; lra.
  - apply Rmult_le_pos; lra.
  - rewrite Rabs_mult. by apply Rmult_le_compat_r.
Qed.

Lemma two_level_real (x0 x1 x2 x3 m0 m1 m2 m3 M0 M1 M2 M3 c0 c1 c2 c3 v : R) :
  Rabs (x0 - m0) <= 6 * unit_roundoff * M0 + 9 * tiny → Rabs m0 <= M0 →
  Rabs (x1 - m1) <= 6 * unit_roundoff * M1 + 9 * tiny → Rabs m1 <= M1 →
  Rabs (x2 - m2) <= 6 * unit_roundoff * M2 + 9 * tiny → Rabs m2 <= M2 →
  Rabs (x3 - m3) <= 6 * unit_roundoff * M3 + 9 * tiny → Rabs m3 <= M3 →
  Rabs (v - (x0 * c0 + x1 * c1 + x2 * c2 + x3 * c3))
  <= 6 * unit_roundoff
       * (Rabs x0 * Rabs c0 + Rabs x1 * Rabs c1 + Rabs x2 * Rabs c2
          + Rabs x3 * Rabs c3)
     + 9 * tiny →
  Rabs (v - (m0 * c0 + m1 * c1 + m2 * c2 + m3 * c3))
  <= 16 * unit_roundoff
        * (M0 * Rabs c0 + M1 * Rabs c1 + M2 * Rabs c2 + M3 * Rabs c3)
     + 16 * (tiny + (tiny * Rabs c0 + tiny * Rabs c1 + tiny * Rabs c2
                     + tiny * Rabs c3)).
Proof.
  intros Hx0 Hm0 Hx1 Hm1 Hx2 Hm2 Hx3 Hm3 Hv.
  destruct (scale_error x0 m0 M0 c0 Hx0 Hm0) as (E0 & W0 & P0 & T0 & _).
  destruct (scale_error x1 m1 M1 c1 Hx1 Hm1) as (E1 & W1 & P1 & T1 & _).
  destruct (scale_error x2 m2 M2 c2 Hx2 Hm2) as (E2 & W2 & P2 & T2 & _).
  destruct (scale_error x3 m3 M3 c3 Hx3 Hm3) as (E3 & W3 & P3 & T3 & _).
  clear Hx0 Hm0 Hx1 Hm1 Hx2 Hm2 Hx3 Hm3.
  pose proof tiny_pos as Ht. rewrite unit_roundoff_eq in *.
  apply abs_le_inv in E0, E1, E2, E3, Hv.
  generalize dependent (Rabs x0 * Rabs c0). generalize dependent (Rabs x1 * Rabs c1).
  generalize dependent (Rabs x2 * Rabs c2). generalize dependent (Rabs x3 * Rabs c3).
  generalize dependent (M0 * Rabs c0). generalize dependent (M1 * Rabs c1).
  generalize dependent (M2 * Rabs c2). generalize dependent (M3 * Rabs c3).
  generalize dependent (tiny * Rabs c0). generalize dependent (tiny * Rabs c1).
  generalize dependent (tiny * Rabs c2). generalize dependent (tiny * Rabs c3).
  generalize dependent (x0 * c0). generalize dependent (x1 * c1).
  generalize dependent (x2 * c2). generalize dependent (x3 * c3).
  generalize dependent (m0 * c0). generalize dependent (m1 * c1).
  generalize dependent (m2 * c2). generalize dependent (m3 * c3).
  intros. apply Rabs_le. lra.
Qed.

End Propagation2.

Section TripleProducts.
Import Reals Lra.
Local Open Scope R_scope.

Lemma elt_product (X Y : list spec_float) (r c : nat) :
  (r < 4)%nat → (c < 4)%nat → elt (product X Y) (r * 4 + c) = dot X Y r c.
Proof. intros Hr Hc. unfold elt. by rewrite product_lookup. Qed.

Lemma abs_dot_real (X Y : list spec_float) (r c : nat) :
  Rabs (rsum4 (λ k, real32 (elt X (r * 4 + k)) * real32 (elt Y (k * 4 + c))))
  <= rsum4 (λ k, Rabs (real32 (elt X (r * 4 + k)))
                 * Rabs (real32 (elt Y (k * 4 + c)))).
Proof. unfold rsum4. rewrite <- !Rabs_mult. apply abs_sum4. Qed.

(** (A x B) x C at row [r], column [c], against the exact triple
    product. *)
Lemma triple_left_error (A B C : list spec_float) (r c : nat) :
  (r < 4)%nat → (c < 4)%nat →
  is_number (dot (product A B) C r c) = true →
  Rabs (real32 (dot (product A B) C r c) - rtriple A B C r c)
  <= 16 * unit_roundoff * atriple A B C r c
     + 16 * (tiny + tiny * rsum4 (λ l, Rabs (real32 (elt C (l * 4 + c))))).
Proof.
  intros Hr Hc Hnum.
  destruct (dot_error _ _ _ _ Hnum) as [Hall Hout].
  assert (Hin : ∀ l, (l < 4)%nat →
    Rabs (real32 (elt (product A B) (r * 4 + l))
          - rsum4 (λ k, real32 (elt A (r * 4 + k)) * real32 (elt B (k * 4 + l))))
    <= 6 * unit_roundoff
         * rsum4 (λ k, Rabs (real32 (elt A (r * 4 + k)))
                       * Rabs (real32 (elt B (k * 4 + l))))
       + 9 * tiny).
  { intros l Hl. destruct (Hall l Hl) as [Hx _].
    rewrite elt_product in * by done. by apply dot_error. }
  pose proof (two_level_real _ _ _ _ _ _ _ _ _ _ _ _ _ _ _ _ _
    (Hin 0%nat ltac:(lia)) (abs_dot_real A B r 0)
    (Hin 1%nat ltac:(lia)) (abs_dot_real A B r 1)
    (Hin 2%nat ltac:(lia)) (abs_dot_real A B r 2)
    (Hin 3%nat ltac:(lia)) (abs_dot_real A B r 3) Hout) as Hb.
  unfold rtriple, atriple, rsum4 in *.
  eapply Rle_trans; [| eapply Rle_trans; [exact Hb |]]; right.
  - f_equal. ring.
  - ring.
Qed.

(** A x (B x C) at row [r], column [c], against the exact triple
    product. *)
Lemma triple_right_error (A B C : list spec_float) (r c : nat) :
  (r < 4)%nat → (c < 4)%nat →
  is_number (dot A (product B C) r c) = true →
  Rabs (real32 (dot A (product B C) r c) - rtriple A B C r c)
  <= 16 * unit_roundoff * atriple A B C r c
     + 16 * (tiny + tiny * rsum4 (λ k, Rabs (real32 (elt A (r * 4 + k))))).
Proof.
  intros Hr Hc Hnum.
  destruct (dot_error _ _ _ _ Hnum) as [Hall Hout].
  assert (Hin : ∀ k, (k < 4)%nat →
    Rabs (real32 (elt (product B C) (k * 4 + c))
          - rsum4 (λ l, real32 (elt B (k * 4 + l)) * real32 (elt C (l * 4 + c))))
    <= 6 * unit_roundoff
         * rsum4 (λ l, Rabs (real32 (elt B (k * 4 + l)))
                       * Rabs (real32 (elt C (l * 4 + c))))
       + 9 * tiny).
  { intros k Hk. destruct (Hall k Hk) as [_ Hy].
    rewrite elt_product in * by done. by apply dot_error. }
  unfold rsum4 in Hout.
  rewrite !(Rmult_comm (real32 (elt A _))) in Hout.
  rewrite !(Rmult_comm (Rabs (real32 (elt A _)))) in Hout.
  pose proof (two_level_real _ _ _ _ _ _ _ _ _ _ _ _ _ _ _ _ _
    (Hin 0%nat ltac:(lia)) (abs_dot_real B C 0 c)
    (Hin 1%nat ltac:(lia)) (abs_dot_real B C 1 c)
    (Hin 2%nat ltac:(lia)) (abs_dot_real B C 2 c)
    (Hin 3%nat ltac:(lia)) (abs_dot_real B C 3 c) Hout) as Hb.
  unfold rtriple, atriple, rsum4 in *.
  eapply Rle_trans; [| eapply Rle_trans; [exact Hb |]]; right.
  - f_equal. ring.
  - ring.
Qed.

End TripleProducts.

(** * Rounding errors of the cofactor expansion *)

Section Determinant.
Import Reals Lra.
Local Open Scope R_scope.

Lemma det2_real (v1 v2 e1 e2 d : R) :
  Rabs (v1 - e1) <= unit_roundoff * Rabs e1 + tiny →
  Rabs (v2 - e2) <= unit_roundoff * Rabs e2 + tiny →
  Rabs (d - (v1 - v2)) <= unit_roundoff * Rabs (v1 - v2) + tiny →
  Rabs (d - (e1 - e2)) <= 3 * unit_roundoff * (Rabs e1 + Rabs e2) + 4 * tiny
  ∧ Rabs (e1 - e2) <= Rabs e1 + Rabs e2.
Proof.
  rewrite unit_roundoff_eq. pose proof tiny_pos as Ht.
  intros G1 G2 E.
  pose proof (abs_bounds e1) as B1. pose proof (abs_bounds e2) as B2.
  apply abs_le_inv in G1, G2, E.
  assert (T : Rabs (v1 - v2) <= 101 / 100 * (Rabs e1 + Rabs e2) + 2 * tiny)
    by (apply Rabs_le; lra).
  split; apply Rabs_le; lra.
Qed.

Lemma det2_error (p q r s : spec_float) :
  is_number (det2 p q r s) = true →
  Rabs (real32 (det2 p q r s) - (real32 p * real32 s - real32 q * real32 r))
  <= 3 * unit_roundoff
       * (Rabs (real32 p) * Rabs (real32 s) + Rabs (real32 q) * Rabs (real32 r))
     + 4 * tiny
  ∧ Rabs (real32 p * real32 s - real32 q * real32 r)
    <= Rabs (real32 p) * Rabs (real32 s) + Rabs (real32 q) * Rabs (real32 r).
Proof.
  unfold det2. intros Hnum.
  destruct (fsub_error _ _ Hnum) as (H1 & H2 & E).
  destruct (fmul_error _ _ H1) as (_ & _ & G1).
  destruct (fmul_error _ _ H2) as (_ & _ & G2).
  rewrite <- !Rabs_mult. exact (det2_real _ _ _ _ _ G1 G2 E).
Qed.

Lemma scale_bound (x m M c e : R) :
  Rabs (x - m) <= e → Rabs m <= M →
  Rabs (c * x - c * m) <= Rabs c * e
  ∧ Rabs (c * x) <= Rabs c * M + Rabs c * e
  ∧ Rabs (c * m) <= Rabs c * M.
Proof.
  intros Hx Hm. pose proof (Rabs_pos c) as Hc.
  assert (Hx' : Rabs x <= M + e).
  { pose proof (abs_bounds m). apply abs_le_inv in Hx. apply Rabs_le. lra. }
  split; [| split].
  - replace (c * x - c * m) with (c * (x - m)) by ring. rewrite Rabs_mult.
    by apply Rmult_le_compat_l.
  - rewrite Rabs_mult, <- Rmult_plus_distr_l. by apply Rmult_le_compat_l.
  - rewrite Rabs_mult. by apply Rmult_le_compat_l.
Qed.

Lemma cofactor_term_real (t x ex bound ea : R) :
  Rabs (t - x) <= unit_roundoff * Rabs x + tiny →
  Rabs (x - ex) <= 3 * unit_roundoff * bound + 4 * ea →
  Rabs x <= bound + (3 * unit_roundoff * bound + 4 * ea) →
  0 <= bound → 0 <= ea →
  Rabs (t - ex) <= 5 * unit_roundoff * bound + 5 * ea + tiny.
Proof.
  rewrite unit_roundoff_eq. pose proof tiny_pos as Ht.
  intros G S1 S2 Hb Ha. apply abs_le_inv in G, S1. apply Rabs_le. lra.
Qed.

(** One term of the cofactor expansion. *)
Lemma cofactor_term_error (a p q r s : spec_float) :
  is_number (fmul a (det2 p q r s)) = true →
  let exact := real32 a * (real32 p * real32 s - real32 q * real32 r) in
  let bound := Rabs (real32 a) * Rabs (real32 p) * Rabs (real32 s)
               + Rabs (real32 a) * Rabs (real32 q) * Rabs (real32 r) in
  Rabs (real32 (fmul a (det2 p q r s)) - exact)
  <= 5 * unit_roundoff * bound + 5 * (tiny * Rabs (real32 a)) + tiny
  ∧ Rabs exact <= bound ∧ 0 <= tiny * Rabs (real32 a).
Proof.
  intros Hnum exact bound.
  destruct (fmul_error _ _ Hnum) as (_ & HD & G).
  destruct (det2_error _ _ _ _ HD) as [E Hd].
  destruct (scale_bound _ _ _ (real32 a) _ E Hd) as (S1 & S2 & S3).
  assert (Ha : 0 <= tiny * Rabs (real32 a))
    by (apply Rmult_le_pos; [pose proof tiny_pos; lra | apply Rabs_pos]).
  assert (Hb : Rabs (real32 a)
               * (Rabs (real32 p) * Rabs (real32 s)
                  + Rabs (real32 q) * Rabs (real32 r)) = bound)
    by (unfold bound; ring).
  assert (Hp : 0 <= bound).
  { rewrite <- Hb. apply Rmult_le_pos; [apply Rabs_pos |].
    pose proof (Rabs_pos (real32 p * real32 s - real32 q * real32 r)). lra. }
  rewrite Hb in S2, S3.
  replace (Rabs (real32 a) * (3 * unit_roundoff
            * (Rabs (real32 p) * Rabs (real32 s)
               + Rabs (real32 q) * Rabs (real32 r)) + 4 * tiny))
    with (3 * unit_roundoff * bound + 4 * (tiny * Rabs (real32 a)))
    in S1, S2 by (rewrite <- Hb; ring).
  split; [| split; [exact S3 | exact Ha]].
  exact (cofactor_term_real _ _ _ _ _ G S1 S2 Hp Ha).
Qed.

Lemma cofactor_sum_real (t1 t2 t3 e1 e2 e3 X1 X2 X3 A1 A2 A3 r1 r : R) :
  Rabs (t1 - e1) <= 5 * unit_roundoff * X1 + 5 * A1 + tiny →
  Rabs e1 <= X1 → 0 <= A1 →
  Rabs (t2 - e2) <= 5 * unit_roundoff * X2 + 5 * A2 + tiny →
  Rabs e2 <= X2 → 0 <= A2 →
  Rabs (t3 - e3) <= 5 * unit_roundoff * X3 + 5 * A3 + tiny →
  Rabs e3 <= X3 → 0 <= A3 →
  Rabs (r1 - (t1 - t2)) <= unit_roundoff * Rabs (t1 - t2) + tiny →
  Rabs (r - (r1 + t3)) <= unit_roundoff * Rabs (r1 + t3) + tiny →
  Rabs (r - (e1 - e2 + e3))
  <= 8 * unit_roundoff * (X1 + X2 + X3) + 8 * (tiny + A1 + A2 + A3).
Proof.
  rewrite unit_roundoff_eq. pose proof tiny_pos as Ht.
  intros T1 E1 P1 T2 E2 P2 T3 E3 P3 R1 R2.
  pose proof (Rabs_pos e1). pose proof (Rabs_pos e2). pose proof (Rabs_pos e3).
  apply abs_le_inv in T1, T2, T3, E1, E2, E3, R1, R2.
  assert (B1 : Rabs (t1 - t2)
               <= 101 / 100 * (X1 + X2 + X3) + 6 * (tiny + A1 + A2 + A3))
    by (apply Rabs_le; lra).
  assert (B2 : Rabs (r1 + t3)
               <= 101 / 100 * (X1 + X2 + X3) + 6 * (tiny + A1 + A2 + A3))
    by (apply Rabs_le; lra).
  apply Rabs_le. lra.
Qed.

(** The value computed by [cofactor3] against the exact determinant of the
    values of its nine operands. *)
Lemma cofactor3_error (a b c d e f g h i : spec_float) :
  is_number (cofactor3 a b c d e f g h i) = true →
  Rabs (real32 (cofactor3 a b c d e f g h i)
        - (real32 a * (real32 e * real32 i - real32 f * real32 h)
           - real32 b * (real32 d * real32 i - real32 f * real32 g)
           + real32 c * (real32 d * real32 h - real32 e * real32 g)))
  <= 8 * unit_roundoff
       * (Rabs (real32 a) * Rabs (real32 e) * Rabs (real32 i)
          + Rabs (real32 a) * Rabs (real32 f) * Rabs (real32 h)
          + Rabs (real32 b) * Rabs (real32 d) * Rabs (real32 i)
          + Rabs (real32 b) * Rabs (real32 f) * Rabs (real32 g)
          + Rabs (real32 c) * Rabs (real32 d) * Rabs (real32 h)
          + Rabs (real32 c) * Rabs (real32 e) * Rabs (real32 g))
     + 8 * (tiny + tiny * Rabs (real32 a) + tiny * Rabs (real32 b)
            + tiny * Rabs (real32 c)).
Proof.
  unfold cofactor3. intros Hnum.
  destruct (fadd_error _ _ Hnum) as (H12 & H3 & R2).
  destruct (fsub_error _ _ H12) as (H1 & H2 & R1).
  destruct (cofactor_term_error _ _ _ _ _ H1) as (T1 & E1 & P1).
  destruct (cofactor_term_error _ _ _ _ _ H2) as (T2 & E2 & P2).
  destruct (cofactor_term_error _ _ _ _ _ H3) as (T3 & E3 & P3).
  cbv zeta in *.
  pose proof (cofactor_sum_real _ _ _ _ _ _ _ _ _ _ _ _ _ _
                T1 E1 P1 T2 E2 P2 T3 E3 P3 R1 R2) as Hb.
  eapply Rle_trans; [exact Hb |]. right. ring.
Qed.

End Determinant.

(** * Tolerances as rational numbers *)

Section Rationals.
Import Reals Lra Qreals.
Local Open Scope R_scope.

Lemma Q2R_inject_Z z : Q2R (inject_Z z) = IZR z.
Proof. unfold Q2R, inject_Z. cbn [Qnum Qden]. lra. Qed.

Lemma Q2R_pow2 e : Q2R (2 ^ e) = bpow e.
Proof.
  unfold bpow. rewrite RMicromega.Q2RpowerRZ by (left; discriminate).
  f_equal. apply (Q2R_inject_Z 2).
Qed.

Lemma Q2R_abs q : Q2R (Qabs q) = Rabs (Q2R q).
Proof.
  destruct q as [n d]. unfold Qabs, Q2R. cbn [Qnum Qden].
  rewrite abs_IZR, Rabs_mult. f_equal. symmetry. apply Rabs_pos_eq.
  apply Rlt_le, Rinv_0_lt_compat, IZR_lt. lia.
Qed.

Lemma value32_real x : Q2R (default 0%Q (value32 x)) = real32 x.
Proof.
  destruct x as [s|s| |s mx ex]; cbn [value32 default from_option Datatypes.id real32];
    try apply RMicromega.Q2R_0.
  by rewrite Q2R_mult, Q2R_inject_Z, Q2R_pow2.
Qed.

Lemma Q2R_magnitude x : Q2R (magnitude x) = Rabs (real32 x).
Proof.
  rewrite <- value32_real. unfold magnitude.
  destruct (value32 x) as [q|]; cbn [default from_option Datatypes.id].
  - apply Q2R_abs.
  - by rewrite RMicromega.Q2R_0, Rabs_R0.
Qed.

Lemma within_tolerance_real tol x y :
  is_number x = true → is_number y = true →
  Rabs (real32 x - real32 y) <= Q2R tol → within_tolerance tol x y.
Proof.
  intros Hx Hy. rewrite <- !value32_real. unfold within_tolerance.
  destruct x as [sx|sx| |sx mx ex]; try discriminate;
    destruct y as [sy|sy| |sy my ey]; try discriminate;
    cbn [value32 default from_option Datatypes.id]; intros Hle; apply Rle_Qle;
    by rewrite Q2R_abs, Q2R_minus.
Qed.

Lemma Q2R_assoc_tolerance A B C r c :
  Q2R (assoc_tolerance A B C r c)
  = bpow (-19) * atriple A B C r c
    + bpow (-145) * (1 + rsum4 (λ k, Rabs (real32 (elt A (r * 4 + k))))
                       + rsum4 (λ l, Rabs (real32 (elt C (l * 4 + c))))).
Proof.
  unfold assoc_tolerance, atriple, sum4, rsum4.
  repeat first [rewrite Q2R_plus | rewrite Q2R_mult | rewrite Q2R_pow2
               | rewrite Q2R_magnitude | rewrite RMicromega.Q2R_1].
  reflexivity.
Qed.

Lemma Q2R_det_tolerance A :
  Q2R (det_tolerance A)
  = bpow (-21)
    * (Rabs (real32 (elt A 0)) * Rabs (real32 (elt A 5)) * Rabs (real32 (elt A 10))
       + Rabs (real32 (elt A 0)) * Rabs (real32 (elt A 6)) * Rabs (real32 (elt A 9))
       + Rabs (real32 (elt A 1)) * Rabs (real32 (elt A 4)) * Rabs (real32 (elt A 10))
       + Rabs (real32 (elt A 1)) * Rabs (real32 (elt A 6)) * Rabs (real32 (elt A 8))
       + Rabs (real32 (elt A 2)) * Rabs (real32 (elt A 4)) * Rabs (real32 (elt A 9))
       + Rabs (real32 (elt A 2)) * Rabs (real32 (elt A 5)) * Rabs (real32 (elt A 8)))
    + bpow (-147)
      * (1 + Rabs (real32 (elt A 0)) + Rabs (real32 (elt A 1))
         + Rabs (real32 (elt A 2))).
Proof.
  unfold det_tolerance.
  repeat first [rewrite Q2R_plus | rewrite Q2R_mult | rewrite Q2R_pow2
               | rewrite Q2R_magnitude | rewrite RMicromega.Q2R_1].
  reflexivity.
Qed.

Lemma bpow_m19 : bpow (-19) = 32 * unit_roundoff.
Proof.
  unfold unit_roundoff. change (-19)%Z with (5 + -24)%Z. rewrite bpow_add.
  f_equal. unfold bpow. simpl. lra.
Qed.

Lemma bpow_m21 : bpow (-21) = 8 * unit_roundoff.
Proof.
  unfold unit_roundoff. change (-21)%Z with (3 + -24)%Z. rewrite bpow_add.
  f_equal. unfold bpow. simpl. lra.
Qed.

Lemma bpow_m145 : bpow (-145) = 32 * tiny.
Proof.
  unfold tiny. change (-145)%Z with (5 + -150)%Z. rewrite bpow_add.
  f_equal. unfold bpow. simpl. lra.
Qed.

Lemma bpow_m147 : bpow (-147) = 8 * tiny.
Proof.
  unfold tiny. change (-147)%Z with (3 + -150)%Z. rewrite bpow_add.
  f_equal. unfold bpow. simpl. lra.
Qed.

Lemma atriple_pos A B C r c : 0 <= atriple A B C r c.
Proof.
  unfold atriple, rsum4.
  repeat apply Rplus_le_le_0_compat; repeat apply Rmult_le_pos; apply Rabs_pos.
Qed.

Lemma rsum4_abs_pos (f : nat → R) : 0 <= rsum4 (λ k, Rabs (f k)).
Proof. unfold rsum4. repeat apply Rplus_le_le_0_compat; apply Rabs_pos. Qed.

(** The two triple products at row [r], column [c]. *)
Lemma triple_products_within_tolerance (A B C : list spec_float) (r c : nat) :
  (r < 4)%nat → (c < 4)%nat →
  is_number (dot (product A B) C r c) = true →
  is_number (dot A (product B C) r c) = true →
  within_tolerance (assoc_tolerance A B C r c)
    (dot (product A B) C r c) (dot A (product B C) r c).
Proof.
  intros Hr Hc HL HR. apply within_tolerance_real; try done.
  rewrite Q2R_assoc_tolerance, bpow_m19, bpow_m145.
  pose proof (triple_left_error A B C r c Hr Hc HL) as EL.
  pose proof (triple_right_error A B C r c Hr Hc HR) as ER.
  pose proof (atriple_pos A B C r c) as Hp.
  pose proof (rsum4_abs_pos (λ k, real32 (elt A (r * 4 + k)))) as Ha.
  pose proof (rsum4_abs_pos (λ l, real32 (elt C (l * 4 + c)))) as Hc'.
  cbv beta in Ha, Hc'.
  apply (Rmult_le_compat_l tiny) in Ha, Hc'; try (pose proof tiny_pos; lra).
  rewrite Rmult_0_r in Ha, Hc'.
  pose proof tiny_pos as Ht. rewrite unit_roundoff_eq in *.
  apply abs_le_inv in EL, ER.
  replace (32 * tiny * (1 + rsum4 (λ k, Rabs (real32 (elt A (r * 4 + k))))
                          + rsum4 (λ l, Rabs (real32 (elt C (l * 4 + c))))))
    with (32 * tiny
          + 32 * (tiny * rsum4 (λ k, Rabs (real32 (elt A (r * 4 + k)))))
          + 32 * (tiny * rsum4 (λ l, Rabs (real32 (elt C (l * 4 + c))))))
    by ring.
  generalize dependent (tiny * rsum4 (λ k, Rabs (real32 (elt A (r * 4 + k))))).
  generalize dependent (tiny * rsum4 (λ l, Rabs (real32 (elt C (l * 4 + c))))).
  generalize dependent (atriple A B C r c).
  generalize dependent (rtriple A B C r c).
  intros. apply Rabs_le. lra.
Qed.

(** The determinant of a block with two equal rows. *)
Lemma equal_rows_within_tolerance (A : list spec_float) :
  (elt A 0 = elt A 4 ∧ elt A 1 = elt A 5 ∧ elt A 2 = elt A 6)
  ∨ (elt A 0 = elt A 8 ∧ elt A 1 = elt A 9 ∧ elt A 2 = elt A 10)
  ∨ (elt A 4 = elt A 8 ∧ elt A 5 = elt A 9 ∧ elt A 6 = elt A 10) →
  let d := cofactor3 (elt A 0) (elt A 1) (elt A 2) (elt A 4) (elt A 5) (elt A 6)
                     (elt A 8) (elt A 9) (elt A 10) in
  is_number d = true →
  within_tolerance (det_tolerance A) d (S754_zero false).
Proof.
  intros Hrows d Hnum. apply within_tolerance_real; try done.
  rewrite Q2R_det_tolerance, bpow_m21, bpow_m147.
  pose proof (cofactor3_error _ _ _ _ _ _ _ _ _ Hnum) as E. fold d in E.
  cbn [real32]. rewrite Rminus_0_r.
  assert (Hz : real32 (elt A 0) * (real32 (elt A 5) * real32 (elt A 10)
                                   - real32 (elt A 6) * real32 (elt A 9))
               - real32 (elt A 1) * (real32 (elt A 4) * real32 (elt A 10)
                                     - real32 (elt A 6) * real32 (elt A 8))
               + real32 (elt A 2) * (real32 (elt A 4) * real32 (elt A 9)
                                     - real32 (elt A 5) * real32 (elt A 8)) = 0).
  { destruct Hrows as [(-> & -> & ->) | [(-> & -> & ->) | (-> & -> & ->)]]; ring. }
  rewrite Hz, Rminus_0_r in E.
  eapply Rle_trans; [exact E |]. right. ring.
Qed.

End Rationals.

(** * The methods, for every scalar arithmetic *)

Section Claims.
Context {F : Type} `{Scalar F}.

(** C1. After [M.multiply(N)] the buffer of [M] holds, at every index
    [r*4+c] with r, c in 0..3, the sum over k = 0..3 of
    old-M[r*4+k] * N[k*4+c] (accumulated from 0.0 in the order of k), and
    nothing of the old state is left: the new buffer is exactly these 16
    values.  [N] may be [M] itself. *)
Theorem multiply_row_major_product (h : heap F) (this other : Matrix4) (A B : list F) :
  holds h this A → holds h other B →
  ∃ P, multiply this other h = Some (tt, <[m this := Some <$> P]> h)
     ∧ length P = 16
     ∧ ∀ r c, r < 4 → c < 4 →
         P !! (r * 4 + c)
         = Some (fadd (fadd (fadd (fadd fzero
               (fmul (elt A (r * 4 + 0)) (elt B (0 * 4 + c))))
               (fmul (elt A (r * 4 + 1)) (elt B (1 * 4 + c))))
               (fmul (elt A (r * 4 + 2)) (elt B (2 * 4 + c))))
               (fmul (elt A (r * 4 + 3)) (elt B (3 * 4 + c)))).
Proof.
  intros HA HB. exists (product A B). split; [| split].
  - by apply multiply_spec.
  - apply length_product.
  - intros r c Hr Hc. rewrite <- dot_unfold. by apply product_lookup.
Qed.

(** C10. The self-call [A.multiply(A)] leaves [A] holding the product
    A x A: element [r*4+c] is the sum over k of old-A[r*4+k] *
    old-A[k*4+c].  Every read of the loop sees the old values, the writes
    going to the temporary until the copy back. *)
Theorem multiply_self_is_square (h : heap F) (this : Matrix4) (A : list F) :
  holds h this A →
  ∃ P, multiply this this h = Some (tt, <[m this := Some <$> P]> h)
     ∧ length P = 16
     ∧ ∀ r c, r < 4 → c < 4 →
         P !! (r * 4 + c)
         = Some (fadd (fadd (fadd (fadd fzero
               (fmul (elt A (r * 4 + 0)) (elt A (0 * 4 + c))))
               (fmul (elt A (r * 4 + 1)) (elt A (1 * 4 + c))))
               (fmul (elt A (r * 4 + 2)) (elt A (2 * 4 + c))))
               (fmul (elt A (r * 4 + 3)) (elt A (3 * 4 + c)))).
Proof.
  intros HA. exists (product A A). split; [| split].
  - by apply multiply_spec.
  - apply length_product.
  - intros r c Hr Hc. rewrite <- dot_unfold. by apply product_lookup.
Qed.

(** C2. [getDeterminant] returns the cofactor expansion along the first
    row of the upper-left 3x3 block (indices 0,1,2,4,5,6,8,9,10); two
    matrices that agree on these nine indices have the same determinant,
    whatever their 4th row and column; and the call leaves the store, so
    the 16 elements of the matrix, as it found them. *)
Theorem getDeterminant_cofactor_pure (h : heap F) (this : Matrix4) (A : list F) :
  holds h this A →
  getDeterminant this h
  = Some (fadd (fsub (fmul (elt A 0) (fsub (fmul (elt A 5) (elt A 10))
                                           (fmul (elt A 6) (elt A 9))))
                     (fmul (elt A 1) (fsub (fmul (elt A 4) (elt A 10))
                                           (fmul (elt A 6) (elt A 8)))))
               (fmul (elt A 2) (fsub (fmul (elt A 4) (elt A 9))
                                     (fmul (elt A 5) (elt A 8)))), h)
  ∧ getDeterminant this h
    = Some (cofactor3 (elt A 0) (elt A 1) (elt A 2)
                      (elt A 4) (elt A 5) (elt A 6)
                      (elt A 8) (elt A 9) (elt A 10), h)
  ∧ ∀ (h' : heap F) (that : Matrix4) (A' : list F),
      holds h' that A' →
      (∀ i, i ∈ [0; 1; 2; 4; 5; 6; 8; 9; 10] → elt A' i = elt A i) →
      fst <$> getDeterminant that h' = fst <$> getDeterminant this h.
Proof.
  intros HA. split; [by apply getDeterminant_spec |].
  split; [by apply getDeterminant_spec |].
  intros h' that A' HA' Hagree.
  rewrite (getDeterminant_spec this A h HA).
  rewrite (getDeterminant_spec that A' h' HA').
  rewrite !Hagree by set_solver. reflexivity.
Qed.

(** C3. After [M.setTranslation(x, y, z)] the elements 12, 13, 14 are
    x, y, z and each of the other 13 elements is what it was. *)
Theorem setTranslation_frame (h : heap F) (this : Matrix4) (A : list F) (x y z : F) :
  holds h this A →
  ∃ A', setTranslation this x y z h = Some (tt, <[m this := Some <$> A']> h)
      ∧ length A' = 16
      ∧ A' !! 12 = Some x ∧ A' !! 13 = Some y ∧ A' !! 14 = Some z
      ∧ ∀ i, i ≠ 12 → i ≠ 13 → i ≠ 14 → A' !! i = A !! i.
Proof.
  intros HA. exists (<[14 := z]> (<[13 := y]> (<[12 := x]> A))).
  pose proof HA as [_ Hl].
  split; [by apply setTranslation_spec |].
  split; [by rewrite !length_insert |].
  rewrite (sixteen A Hl). repeat split.
  intros i H12 H13 H14.
  do 15 (destruct i as [|i]; [try reflexivity; congruence |]). reflexivity.
Qed.

(** C4. After [M.identity()] the elements 0, 5, 10, 15 are 1.0 and the
    other twelve are 0.0, whatever the buffer held before (written or
    not); and [new Matrix4()], from any store, yields a matrix on a fresh
    buffer in exactly this state. *)
Theorem identity_and_constructor :
  (∀ i, i < 16 →
     identity_matrix !! i
     = Some (if decide (i ∈ [0; 5; 10; 15]) then fone else fzero))
  ∧ (∀ (h : heap F) (this : Matrix4) (b : buffer F),
       h !! m this = Some b → length b = 16 →
       identity this h = Some (tt, <[m this := Some <$> identity_matrix]> h))
  ∧ (∀ h : heap F, ∃ that,
       h !! m that = None
       ∧ Matrix4_new h = Some (that, <[m that := Some <$> identity_matrix]> h)).
Proof.
  split; [| split].
  - intros i Hi. do 16 (destruct i as [|i]; [reflexivity |]). lia.
  - intros h this b Hp Hb. by eapply identity_spec.
  - intros h. exists {| m := fresh (dom h) |}. apply Matrix4_new_spec.
Qed.

End Claims.

(** * The argument of multiply *)

Section Argument.
Context {F : Type} `{Scalar F}.

(** C6 (amended). When the argument is another matrix than the receiver,
    [M.multiply(other)] leaves all 16 elements of [other], and every
    buffer of the store but the receiver's, as they were. *)
Theorem multiply_keeps_other_argument (h : heap F) (this other : Matrix4) (A B : list F) :
  holds h this A → holds h other B → m this ≠ m other →
  ∃ h', multiply this other h = Some (tt, h')
      ∧ holds h' other B
      ∧ ∀ p, p ≠ m this → h' !! p = h !! p.
Proof.
  intros HA HB Hne. exists (<[m this := Some <$> product A B]> h).
  split; [by apply multiply_spec |]. destruct HB as [HpB HlB]. split.
  - split; [| done]. by rewrite lookup_insert_ne.
  - intros p Hp. by rewrite lookup_insert_ne.
Qed.

End Argument.

(** * binary32: the claims that depend on the arithmetic *)

(** C6, as stated, fails for the self-call: with A = 2 I, [A.multiply(A)]
    has A as its argument and leaves 4 I in it. *)
Lemma multiply_self_changes_argument :
  holds (store1 twice_identity) matA twice_identity
  ∧ ∃ P, multiply matA matA (store1 twice_identity) = Some (tt, store1 P)
       ∧ elt twice_identity 0 = f32_of_Z 2
       ∧ elt P 0 = f32_of_Z 4.
Proof.
  split; [by vm_compute |].
  exists (matrix_of_Z [4; 0; 0; 0; 0; 4; 0; 0; 0; 0; 4; 0; 0; 0; 0; 4]%Z).
  by vm_compute.
Qed.

(** C5 (amended). For a matrix N whose 16 elements are finite, multiplying
    the identity by N (either way round) leaves in the receiver the values
    of N, a -0.0 of N being replaced by +0.0; so each element compares
    equal to that of N. *)
Theorem identity_neutral_on_finite (h : heap spec_float) (i n : Matrix4) (N : list spec_float) :
  holds h i identity_matrix → holds h n N →
  Forall (λ x, is_finite32 x = true) N →
  multiply i n h = Some (tt, <[m i := Some <$> (plus_zero <$> N)]> h)
  ∧ multiply n i h = Some (tt, <[m n := Some <$> (plus_zero <$> N)]> h)
  ∧ Forall2 (λ x y, SFeqb x y = true) (plus_zero <$> N) N.
Proof.
  intros Hi Hn Hfin. pose proof Hn as [_ Hl]. repeat split.
  - rewrite (multiply_spec i n identity_matrix N h Hi Hn).
    by rewrite f32_product_identity_l.
  - rewrite (multiply_spec n i N identity_matrix h Hn Hi).
    by rewrite f32_product_identity_r.
  - apply Forall2_fmap_l, Forall_Forall2_diag.
    eapply Forall_impl; [exact Hfin |]. intros x Hx. by apply f32_eqb_plus_zero.
Qed.

(** C5, as stated, fails: with an infinity at index 4 of N the identity
    times N has NaN at index 0, where N has 0.0; and a -0.0 of N comes
    out as +0.0. *)
Lemma identity_times_infinity :
  (let N := below_corner (S754_infinity false) in
   let h := store2 identity_matrix N in
   holds h matA identity_matrix ∧ holds h matB N
   ∧ ∃ P, multiply matA matB h = Some (tt, <[m matA := Some <$> P]> h)
        ∧ elt N 0 = S754_zero false ∧ elt P 0 = S754_nan)
  ∧ (let N := corner (S754_zero true) in
     let h := store2 identity_matrix N in
     holds h matA identity_matrix ∧ holds h matB N
     ∧ ∃ P, multiply matA matB h = Some (tt, <[m matA := Some <$> P]> h)
          ∧ elt N 0 = S754_zero true ∧ elt P 0 = S754_zero false).
Proof.
  split.
  - split; [by vm_compute |]. split; [by vm_compute |].
    exists (product identity_matrix (below_corner (S754_infinity false))).
    by vm_compute.
  - split; [by vm_compute |]. split; [by vm_compute |].
    exists (product identity_matrix (corner (S754_zero true))).
    by vm_compute.
Qed.

(** C8. The scenario of [main]: two fresh matrices, translations
    (10,5,0) and (2,3,1), then [A.multiply(B)]: the elements 12, 13, 14 of
    A are 12, 8, 1 and [A.getDeterminant()] returns 1.0, which is what
    [main] prints before it frees both matrices and returns 0. *)
Theorem main_scenario :
  ∃ a b h A,
    main_setup (f32_of_Z 10) (f32_of_Z 5) (f32_of_Z 0)
               (f32_of_Z 2) (f32_of_Z 3) (f32_of_Z 1) ∅ = Some ((a, b), h)
    ∧ holds h a A
    ∧ A !! 12 = Some (f32_of_Z 12) ∧ A !! 13 = Some (f32_of_Z 8)
    ∧ A !! 14 = Some (f32_of_Z 1)
    ∧ getDeterminant a h = Some (fone, h)
    ∧ main ∅ = Some ((fone, 0%Z), ∅).
Proof.
  exists matA, matB.
  exists (store2 (matrix_of_Z [1;0;0;0; 0;1;0;0; 0;0;1;0; 12;8;1;1]%Z)
                 (matrix_of_Z [1;0;0;0; 0;1;0;0; 0;0;1;0; 2;3;1;1]%Z)).
  exists (matrix_of_Z [1;0;0;0; 0;1;0;0; 0;0;1;0; 12;8;1;1]%Z).
  by vm_compute.
Qed.

(** * Products of three matrices, in binary32 *)

(** C7 (amended). Computing (A x B) x C and A x (B x C) by successive
    [multiply] calls, the receiver being distinct from both arguments,
    always succeeds, and wherever the two results are both numbers
    (neither an infinity nor NaN, that is, nothing overflowed on the way
    to that element) they agree to within the tolerance
    2^-19 * sum over k, l of |A[r][k]| |B[k][l]| |C[l][c]|
    + 2^-145 * (1 + sum over k of |A[r][k]| + sum over l of |C[l][c]|),
    every operation being rounded to binary32 on its own. *)
Theorem triple_product_agreement (h : heap spec_float) (a b c : Matrix4)
    (A B C : list spec_float) :
  holds h a A → holds h b B → holds h c C → m a ≠ m b → m a ≠ m c →
  ∃ hl hr L R,
    triple_left a b c h = Some (tt, hl) ∧ holds hl a L
    ∧ triple_right a b c h = Some (tt, hr) ∧ holds hr a R
    ∧ ∀ i j, i < 4 → j < 4 →
        is_number (elt L (i * 4 + j)) = true →
        is_number (elt R (i * 4 + j)) = true →
        within_tolerance (assoc_tolerance A B C i j)
          (elt L (i * 4 + j)) (elt R (i * 4 + j)).
Proof.
  intros HA HB HC Hab Hac.
  eexists _, _, (product (product A B) C), (product A (product B C)).
  split; [by apply triple_left_spec |].
  split; [apply holds_insert, length_product |].
  split; [by apply triple_right_spec |].
  split; [apply holds_insert, length_product |].
  intros i j Hi Hj. rewrite !elt_product by done.
  by apply triple_products_within_tolerance.
Qed.

(** The tolerance is needed, and it is small: on three matrices of
    elements 0.1, 0.2, 0.3 and small integers the two results differ in
    their first element by two units in the last place, within a
    tolerance below 10^-5. *)
Lemma triple_product_rounds_differently :
  let A := fractions1 in
  let B := fractions2 in
  let C := fractions3 in
  let L := product (product A B) C in
  let R := product A (product B C) in
  elt L 0 = S754_finite false 15938357 (-24)
  ∧ elt R 0 = S754_finite false 15938355 (-24)
  ∧ within_tolerance (assoc_tolerance A B C 0 0) (elt L 0) (elt R 0)
  ∧ (assoc_tolerance A B C 0 0 < 1 # 100000)%Q
  ∧ ¬ within_tolerance 0 (elt L 0) (elt R 0).
Proof.
  intros A B C L R.
  split; [by vm_compute |]. split; [by vm_compute |].
  split; [| split; [by vm_compute | by vm_compute]].
  assert (Hw : within_tolerance (assoc_tolerance A B C 0 0)
                 (dot (product A B) C 0 0) (dot A (product B C) 0 0))
    by (apply triple_products_within_tolerance; try lia; by vm_compute).
  rewrite <- !elt_product in Hw by lia. exact Hw.
Qed.

(** C7, as stated, fails in binary32.  With A = B = 2^100 and C = 2^-100 at
    index 0 and zeros elsewhere (all finite), A x B overflows: (A x B) x C
    has +infinity at index 0 and NaN at index 1, where A x (B x C) has
    2^100 and 0.0.  No tolerance relates them. *)
Lemma triple_product_overflow :
  let A := corner (pow2 100) in
  let C := corner (pow2 (-100)) in
  let h := store3 A A C in
  holds h matA A ∧ holds h matB A ∧ holds h matC C
  ∧ Forall (λ x, is_finite32 x = true) (A ++ C)
  ∧ ∃ hl hr L R,
      triple_left matA matB matC h = Some (tt, hl)
      ∧ triple_right matA matB matC h = Some (tt, hr)
      ∧ holds hl matA L ∧ holds hr matA R
      ∧ elt L 0 = S754_infinity false ∧ elt R 0 = pow2 100
      ∧ elt L 1 = S754_nan ∧ elt R 1 = S754_zero false
      ∧ ∀ tol, ¬ within_tolerance tol (elt L 0) (elt R 0)
             ∧ ¬ within_tolerance tol (elt L 1) (elt R 1).
Proof.
  intros A C h.
  split; [by vm_compute |]. split; [by vm_compute |]. split; [by vm_compute |].
  split; [by repeat constructor |].
  exists (<[m matA := Some <$> product (product A A) C]> h).
  exists (<[m matA := Some <$> product A (product A C)]>
            (<[m matB := Some <$> product A C]> h)).
  exists (product (product A A) C), (product A (product A C)).
  split; [by vm_compute |]. split; [by vm_compute |].
  split; [by vm_compute |]. split; [by vm_compute |].
  split; [by vm_compute |]. split; [by vm_compute |].
  split; [by vm_compute |]. split; [by vm_compute |].
  intros tol. split.
  - apply within_tolerance_infinity_l.
  - apply within_tolerance_nan_l.
Qed.

(** * Determinants of blocks with two equal rows *)

(** C9 (amended). For every matrix whose upper-left 3x3 block has two
    identical rows, [getDeterminant] returns a value that, whenever it is
    a number (neither an infinity nor NaN, that is, no product
    overflowed), is 0.0 to within the tolerance
    2^-21 * (|m0 m5 m10| + |m0 m6 m9| + |m1 m4 m10| + |m1 m6 m8|
             + |m2 m4 m9| + |m2 m5 m8|)
    + 2^-147 * (1 + |m0| + |m1| + |m2|),
    every operation being rounded to binary32 on its own. *)
Theorem determinant_of_equal_rows (h : heap spec_float) (this : Matrix4)
    (A : list spec_float) :
  holds h this A →
  (elt A 0 = elt A 4 ∧ elt A 1 = elt A 5 ∧ elt A 2 = elt A 6)
  ∨ (elt A 0 = elt A 8 ∧ elt A 1 = elt A 9 ∧ elt A 2 = elt A 10)
  ∨ (elt A 4 = elt A 8 ∧ elt A 5 = elt A 9 ∧ elt A 6 = elt A 10) →
  ∃ d, getDeterminant this h = Some (d, h)
     ∧ (is_number d = true →
        within_tolerance (det_tolerance A) d (S754_zero false)).
Proof.
  intros HA Hrows. eexists. split; [by apply getDeterminant_spec |].
  by apply equal_rows_within_tolerance.
Qed.

(** C9, as stated, fails in binary32 when products overflow.  With the
    finite rows (2^100, 2^100, 0), (2^100, 2^100, 0), (0, 0, 2^100) the
    result is NaN, which no tolerance relates to 0.0. *)
Lemma equal_rows_nonzero_determinant :
  let A := block3 (pow2 100) (pow2 100) fzero (pow2 100) (pow2 100) fzero
                  fzero fzero (pow2 100) in
  holds (store1 A) matA A
  ∧ Forall (λ x, is_finite32 x = true) A
  ∧ (elt A 0 = elt A 4 ∧ elt A 1 = elt A 5 ∧ elt A 2 = elt A 6)
  ∧ getDeterminant matA (store1 A) = Some (S754_nan, store1 A)
  ∧ ∀ tol, ¬ within_tolerance tol S754_nan (S754_zero false).
Proof.
  split; [by vm_compute |]. split; [by repeat constructor |].
  split; [by vm_compute |]. split; [by vm_compute |].
  intros tol. apply within_tolerance_nan_l.
Qed.

(** The tolerance is needed, and it has to grow with the elements: with
    rows (0.1, 0.2, 0.3), (0.1, 0.2, 0.3), (7, 8, 9) rounding leaves 2^-26,
    and with the integer rows (3, 5, 7), (3, 5, 7),
    (16777215, 16777213, 16777211) it leaves 32.0, a unit in the last
    place of terms that reach 5 * 10^8; both are within the tolerance. *)
Lemma equal_rows_rounding_residue :
  (let A := block3 tenth fifth three_tenths tenth fifth three_tenths
                   (f32_of_Z 7) (f32_of_Z 8) (f32_of_Z 9) in
   getDeterminant matA (store1 A) = Some (pow2 (-26), store1 A)
   ∧ within_tolerance (det_tolerance A) (pow2 (-26)) (S754_zero false)
   ∧ (det_tolerance A < 1 # 100000)%Q)
  ∧ (let A := block3 (f32_of_Z 3) (f32_of_Z 5) (f32_of_Z 7)
                     (f32_of_Z 3) (f32_of_Z 5) (f32_of_Z 7)
                     (f32_of_Z 16777215) (f32_of_Z 16777213) (f32_of_Z 16777211) in
     getDeterminant matA (store1 A) = Some (pow2 5, store1 A)
     ∧ within_tolerance (det_tolerance A) (pow2 5) (S754_zero false)
     ∧ (det_tolerance A < 1200)%Q).
Proof.
  split.
  - intros A. split; [by vm_compute |]. split; [| by vm_compute].
    assert (Hw := equal_rows_within_tolerance A).
    cbv zeta in Hw.
    replace (cofactor3 _ _ _ _ _ _ _ _ _) with (pow2 (-26)) in Hw
      by (by vm_compute).
    apply Hw; [left; by vm_compute | done].
  - intros A. split; [by vm_compute |]. split; [| by vm_compute].
    assert (Hw := equal_rows_within_tolerance A).
    cbv zeta in Hw.
    replace (cofactor3 _ _ _ _ _ _ _ _ _) with (pow2 5) in Hw
      by (by vm_compute).
    apply Hw; [left; by vm_compute | done].
Qed.

(** * The theorems at sample inputs *)

Lemma multiply_row_major_product_witness :
  let h := store2 counting twice_identity in
  holds h matA counting ∧ holds h matB twice_identity
  ∧ ∃ P, multiply matA matB h = Some (tt, <[m matA := Some <$> P]> h)
       ∧ length P = 16
       ∧ ∀ r c, r < 4 → c < 4 →
           P !! (r * 4 + c)
           = Some (fadd (fadd (fadd (fadd fzero
                 (fmul (elt counting (r * 4 + 0)) (elt twice_identity (0 * 4 + c))))
                 (fmul (elt counting (r * 4 + 1)) (elt twice_identity (1 * 4 + c))))
                 (fmul (elt counting (r * 4 + 2)) (elt twice_identity (2 * 4 + c))))
                 (fmul (elt counting (r * 4 + 3)) (elt twice_identity (3 * 4 + c)))).
Proof.
  intros h.
  assert (HA : holds h matA counting) by (by vm_compute).
  assert (HB : holds h matB twice_identity) by (by vm_compute).
  split; [exact HA |]. split; [exact HB |].
  exact (multiply_row_major_product h matA matB counting twice_identity HA HB).
Defined.

Lemma multiply_self_is_square_witness :
  let h := store1 counting in
  holds h matA counting
  ∧ ∃ P, multiply matA matA h = Some (tt, <[m matA := Some <$> P]> h)
       ∧ length P = 16
       ∧ ∀ r c, r < 4 → c < 4 →
           P !! (r * 4 + c)
           = Some (fadd (fadd (fadd (fadd fzero
                 (fmul (elt counting (r * 4 + 0)) (elt counting (0 * 4 + c))))
                 (fmul (elt counting (r * 4 + 1)) (elt counting (1 * 4 + c))))
                 (fmul (elt counting (r * 4 + 2)) (elt counting (2 * 4 + c))))
                 (fmul (elt counting (r * 4 + 3)) (elt counting (3 * 4 + c)))).
Proof.
  intros h.
  assert (HA : holds h matA counting) by (by vm_compute).
  split; [exact HA |].
  exact (multiply_self_is_square h matA counting HA).
Defined.

Lemma getDeterminant_cofactor_pure_witness :
  let h := store1 counting in
  holds h matA counting
  ∧ getDeterminant matA h
    = Some (cofactor3 (elt counting 0) (elt counting 1) (elt counting 2)
                      (elt counting 4) (elt counting 5) (elt counting 6)
                      (elt counting 8) (elt counting 9) (elt counting 10), h).
Proof.
  intros h.
  assert (HA : holds h matA counting) by (by vm_compute).
  split; [exact HA |].
  exact (proj1 (proj2 (getDeterminant_cofactor_pure h matA counting HA))).
Defined.

Lemma setTranslation_frame_witness :
  let h := store1 counting in
  holds h matA counting
  ∧ ∃ A', setTranslation matA (f32_of_Z 10) (f32_of_Z 5) (f32_of_Z 0) h
          = Some (tt, <[m matA := Some <$> A']> h)
        ∧ length A' = 16
        ∧ A' !! 12 = Some (f32_of_Z 10) ∧ A' !! 13 = Some (f32_of_Z 5)
        ∧ A' !! 14 = Some (f32_of_Z 0)
        ∧ ∀ i, i ≠ 12 → i ≠ 13 → i ≠ 14 → A' !! i = counting !! i.
Proof.
  intros h.
  assert (HA : holds h matA counting) by (by vm_compute).
  split; [exact HA |].
  exact (setTranslation_frame h matA counting _ _ _ HA).
Defined.

Lemma identity_and_constructor_witness :
  let h : heap spec_float := {[ m matA := replicate 16 None ]} in
  h !! m matA = Some (replicate 16 None)
  ∧ length (replicate 16 (@None spec_float)) = 16
  ∧ identity matA h = Some (tt, <[m matA := Some <$> identity_matrix]> h)
  ∧ 5 < 16
  ∧ identity_matrix (F := spec_float) !! 5
    = Some (if decide (5 ∈ [0; 5; 10; 15]) then fone else fzero)
  ∧ ∃ that, (∅ : heap spec_float) !! m that = None
      ∧ Matrix4_new (F := spec_float) ∅
        = Some (that, <[m that := Some <$> identity_matrix]> ∅).
Proof.
  intros h.
  assert (Hp : h !! m matA = Some (replicate 16 None)) by (by vm_compute).
  assert (Hl : length (replicate 16 (@None spec_float)) = 16) by reflexivity.
  split; [exact Hp |]. split; [exact Hl |].
  split; [exact (proj1 (proj2 identity_and_constructor) h matA _ Hp Hl) |].
  assert (H5 : 5 < 16) by lia.
  split; [exact H5 |].
  split; [exact (proj1 identity_and_constructor 5 H5) |].
  exact (proj2 (proj2 identity_and_constructor) ∅).
Defined.

Lemma multiply_keeps_other_argument_witness :
  let h := store2 counting twice_identity in
  holds h matA counting ∧ holds h matB twice_identity ∧ m matA ≠ m matB
  ∧ ∃ h', multiply matA matB h = Some (tt, h')
        ∧ holds h' matB twice_identity
        ∧ ∀ p, p ≠ m matA → h' !! p = h !! p.
Proof.
  intros h.
  assert (HA : holds h matA counting) by (by vm_compute).
  assert (HB : holds h matB twice_identity) by (by vm_compute).
  assert (Hne : m matA ≠ m matB) by (by vm_compute).
  split; [exact HA |]. split; [exact HB |]. split; [exact Hne |].
  exact (multiply_keeps_other_argument h matA matB counting twice_identity HA HB Hne).
Defined.

Lemma identity_neutral_on_finite_witness :
  let h := store2 identity_matrix counting in
  holds h matA identity_matrix ∧ holds h matB counting
  ∧ Forall (λ x, is_finite32 x = true) counting
  ∧ multiply matA matB h = Some (tt, <[m matA := Some <$> (plus_zero <$> counting)]> h)
  ∧ multiply matB matA h = Some (tt, <[m matB := Some <$> (plus_zero <$> counting)]> h)
  ∧ Forall2 (λ x y, SFeqb x y = true) (plus_zero <$> counting) counting.
Proof.
  intros h.
  assert (HA : holds h matA identity_matrix) by (by vm_compute).
  assert (HB : holds h matB counting) by (by vm_compute).
  assert (Hfin : Forall (λ x, is_finite32 x = true) counting)
    by (by repeat constructor).
  split; [exact HA |]. split; [exact HB |]. split; [exact Hfin |].
  exact (identity_neutral_on_finite h matA matB counting HA HB Hfin).
Defined.

Lemma triple_product_agreement_witness :
  let A := fractions1 in
  let B := fractions2 in
  let C := fractions3 in
  let h := store3 A B C in
  holds h matA A ∧ holds h matB B ∧ holds h matC C
  ∧ m matA ≠ m matB ∧ m matA ≠ m matC
  ∧ ∃ hl hr L R,
      triple_left matA matB matC h = Some (tt, hl) ∧ holds hl matA L
      ∧ triple_right matA matB matC h = Some (tt, hr) ∧ holds hr matA R
      ∧ ∀ i j, i < 4 → j < 4 →
          is_number (elt L (i * 4 + j)) = true →
          is_number (elt R (i * 4 + j)) = true →
          within_tolerance (assoc_tolerance A B C i j)
            (elt L (i * 4 + j)) (elt R (i * 4 + j)).
Proof.
  intros A B C h.
  assert (HA : holds h matA A) by (by vm_compute).
  assert (HB : holds h matB B) by (by vm_compute).
  assert (HC : holds h matC C) by (by vm_compute).
  assert (Hab : m matA ≠ m matB) by (by vm_compute).
  assert (Hac : m matA ≠ m matC) by (by vm_compute).
  repeat (split; [assumption |]).
  exact (triple_product_agreement h matA matB matC A B C HA HB HC Hab Hac).
Defined.

Lemma determinant_of_equal_rows_witness :
  let A := block3 tenth fifth three_tenths tenth fifth three_tenths
                  (f32_of_Z 7) (f32_of_Z 8) (f32_of_Z 9) in
  holds (store1 A) matA A
  ∧ ((elt A 0 = elt A 4 ∧ elt A 1 = elt A 5 ∧ elt A 2 = elt A 6)
     ∨ (elt A 0 = elt A 8 ∧ elt A 1 = elt A 9 ∧ elt A 2 = elt A 10)
     ∨ (elt A 4 = elt A 8 ∧ elt A 5 = elt A 9 ∧ elt A 6 = elt A 10))
  ∧ ∃ d, getDeterminant matA (store1 A) = Some (d, store1 A)
       ∧ (is_number d = true →
          within_tolerance (det_tolerance A) d (S754_zero false)).
Proof.
  intros A.
  assert (HA : holds (store1 A) matA A) by (by vm_compute).
  assert (Hrows :
    (elt A 0 = elt A 4 ∧ elt A 1 = elt A 5 ∧ elt A 2 = elt A 6)
    ∨ (elt A 0 = elt A 8 ∧ elt A 1 = elt A 9 ∧ elt A 2 = elt A 10)
    ∨ (elt A 4 = elt A 8 ∧ elt A 5 = elt A 9 ∧ elt A 6 = elt A 10))
    by (left; by vm_compute).
  split; [exact HA |]. split; [exact Hrows |].
  exact (determinant_of_equal_rows (store1 A) matA A HA Hrows).
Defined.

(** * Further properties of the class *)

Section Lifetime.
Context {F : Type} `{Scalar F}.

Lemma Matrix4_delete_spec (h : heap F) (this : Matrix4) (b : buffer F) :
  h !! m this = Some b →
  Matrix4_delete this h = Some (tt, delete (m this) h).
Proof. intros Hp. unfold Matrix4_delete, delete_array. by rewrite Hp. Qed.

(** X1. [new Matrix4()] followed by [delete] gives the store back as it
    was: the buffer that the constructor allocated is the one the
    destructor frees, and no other buffer is touched. *)
Theorem construct_destroy_restores (h : heap F) :
  construct_destroy h = Some (tt, h).
Proof.
  unfold construct_destroy.
  destruct (Matrix4_new_spec h) as [Hfresh Hnew].
  erewrite bind_Some by exact Hnew.
  erewrite Matrix4_delete_spec by apply lookup_insert_eq.
  cbn [m]. by rewrite delete_insert_eq, delete_id.
Qed.

(** X2. The destructor removes the buffer of its matrix and nothing else;
    after it, [identity], [setTranslation], [getDeterminant] and a second
    [delete] on that matrix have no defined result. *)
Theorem no_use_after_delete (h : heap F) (this : Matrix4) (b : buffer F) (x y z : F) :
  h !! m this = Some b →
  Matrix4_delete this h = Some (tt, delete (m this) h)
  ∧ (Matrix4_delete this ;;; identity this) h = None
  ∧ (Matrix4_delete this ;;; setTranslation this x y z) h = None
  ∧ (Matrix4_delete this ;;; getDeterminant this) h = None
  ∧ (Matrix4_delete this ;;; Matrix4_delete this) h = None.
Proof.
  intros Hp. pose proof (Matrix4_delete_spec h this b Hp) as Hd.
  split; [exact Hd |].
  repeat split; erewrite bind_Some by exact Hd.
  - unfold identity, for_upto. cbn [for_from]. rewrite !bind_bind.
    unfold bind at 1, store. by rewrite lookup_delete_eq.
  - unfold setTranslation, bind, store. by rewrite lookup_delete_eq.
  - unfold getDeterminant, bind, load. by rewrite lookup_delete_eq.
  - unfold Matrix4_delete, delete_array. by rewrite lookup_delete_eq.
Qed.

(** X3. [multiply] leaves no temporary behind and touches no buffer but
    the receiver's: afterwards the store has exactly the locations it had,
    and every other buffer is unchanged. *)
Theorem multiply_frees_temporary (h : heap F) (this other : Matrix4) (A B : list F) :
  holds h this A → holds h other B →
  ∃ h', multiply this other h = Some (tt, h')
      ∧ dom h' = dom h
      ∧ ∀ p, p ≠ m this → h' !! p = h !! p.
Proof.
  intros HA HB. exists (<[m this := Some <$> product A B]> h).
  split; [by apply multiply_spec |]. split.
  - destruct HA as [Hp _]. apply dom_insert_lookup_L. eauto.
  - intros p Hne. by rewrite lookup_insert_ne.
Qed.

End Lifetime.

Section Sequences.
Context {F : Type} `{Scalar F}.

Lemma all_matrices_insert (h : heap F) p (A : list F) :
  all_matrices h → length A = 16 → all_matrices (<[p := Some <$> A]> h).
Proof.
  intros Hh HA q b Hq. destruct (decide (p = q)) as [-> | Hne].
  - rewrite lookup_insert_eq in Hq. injection Hq as <-. eauto.
  - rewrite lookup_insert_ne in Hq by done. eauto.
Qed.

Lemma holds_of_live (h : heap F) (this : Matrix4) :
  all_matrices h → m this ∈ dom h → ∃ A, holds h this A.
Proof.
  intros Hh [b Hb]%elem_of_dom. destruct (Hh _ _ Hb) as (A & -> & HA).
  exists A. by split.
Qed.

Lemma live_dom (h h' : heap F) c : dom h' = dom h → live h c → live h' c.
Proof. intros Hd. destruct c; simpl; by rewrite Hd. Qed.

Lemma run_call_safe (h : heap F) (c : call F) :
  all_matrices h → live h c →
  ∃ h', run_call c h = Some (tt, h') ∧ all_matrices h' ∧ dom h' = dom h.
Proof.
  intros Hh Hc. destruct c as [this | this other | this x y z | this]; simpl in Hc.
  - destruct (holds_of_live h this Hh Hc) as (A & Hp & HA).
    exists (<[m this := Some <$> identity_matrix]> h). split; [| split].
    + eapply identity_spec; [exact Hp | by rewrite length_fmap].
    + by apply all_matrices_insert.
    + apply dom_insert_lookup_L. eauto.
  - destruct Hc as [Hc Ho].
    destruct (holds_of_live h this Hh Hc) as (A & HA).
    destruct (holds_of_live h other Hh Ho) as (B & HB).
    exists (<[m this := Some <$> product A B]> h). split; [| split].
    + by apply multiply_spec.
    + apply all_matrices_insert; [done | apply length_product].
    + destruct HA as [Hp _]. apply dom_insert_lookup_L. eauto.
  - destruct (holds_of_live h this Hh Hc) as (A & HA).
    exists (<[m this := Some <$> <[14 := z]> (<[13 := y]> (<[12 := x]> A))]> h).
    split; [| split].
    + by apply setTranslation_spec.
    + apply all_matrices_insert; [done |]. rewrite !length_insert. apply HA.
    + destruct HA as [Hp _]. apply dom_insert_lookup_L. eauto.
  - destruct (holds_of_live h this Hh Hc) as (A & HA).
    exists h. split; [| done]. cbn [run_call].
    erewrite bind_Some by (by apply getDeterminant_spec). done.
Qed.

(** X4. Memory safety of the class.  In a store whose buffers are all
    matrices (16 written cells), every sequence of [identity], [multiply],
    [setTranslation] and [getDeterminant] calls on allocated matrices,
    aliased or not, runs to its end: no call reads outside a buffer, reads
    an unwritten cell or uses a freed one; and afterwards the store has
    the same locations, all of them still matrices. *)
Theorem call_sequences_are_safe (cs : list (call F)) : ∀ h : heap F,
  all_matrices h → Forall (live h) cs →
  ∃ h', run_calls cs h = Some (tt, h') ∧ all_matrices h' ∧ dom h' = dom h.
Proof.
  induction cs as [|c cs IH]; intros h Hh Hcs.
  - by exists h.
  - apply Forall_cons in Hcs as [Hc Hcs].
    destruct (run_call_safe h c Hh Hc) as (h1 & Hrun & Hh1 & Hd1).
    destruct (IH h1 Hh1) as (h' & Hruns & Hh' & Hd').
    { eapply Forall_impl; [exact Hcs |]. intros c'. by apply live_dom. }
    exists h'. split; [| split; [done | congruence]].
    cbn [run_calls]. by erewrite bind_Some by exact Hrun.
Qed.

(** X5. [setTranslation] does not change the determinant: the value
    [getDeterminant] returns after the call is the one it returned
    before. *)
Theorem setTranslation_keeps_determinant (h : heap F) (this : Matrix4) (A : list F) (x y z : F) :
  holds h this A →
  ∃ h' d, setTranslation this x y z h = Some (tt, h')
        ∧ getDeterminant this h = Some (d, h)
        ∧ getDeterminant this h' = Some (d, h').
Proof.
  intros HA. pose proof HA as [Hp Hl].
  eexists _, _. split; [by apply setTranslation_spec |].
  split; [by apply getDeterminant_spec |].
  erewrite getDeterminant_spec.
  2: { apply holds_insert. by rewrite !length_insert. }
  do 2 f_equal. rewrite (sixteen A Hl). reflexivity.
Qed.

(** X6. Of two consecutive [setTranslation] calls on a matrix only the
    second shows: the store is the one the second call alone would
    leave. *)
Theorem setTranslation_last_wins (h : heap F) (this : Matrix4) (A : list F)
    (x y z x' y' z' : F) :
  holds h this A →
  (setTranslation this x y z ;;; setTranslation this x' y' z') h
  = setTranslation this x' y' z' h.
Proof.
  intros HA. pose proof HA as [Hp Hl].
  erewrite bind_Some by (by apply setTranslation_spec).
  erewrite !setTranslation_spec; [| exact HA |].
  2: { apply holds_insert. by rewrite !length_insert. }
  rewrite insert_insert_eq. do 4 f_equal. rewrite (sixteen A Hl). reflexivity.
Qed.

End Sequences.

(** * Affine matrices

    The laws of [IdentityLaws], with the facts that 0.0 and 1.0 are
    themselves well-behaved scalars, settle the products of matrices whose
    4th column is (0, 0, 0, 1). *)

Section AffineLaws.
Context {F : Type} `{Scalar F}.
Variables (ok zero : F → Prop) (nz : F → F).
Hypothesis mul_one_l : ∀ x, ok x → fmul fone x = x.
Hypothesis mul_one_r : ∀ x, ok x → fmul x fone = x.
Hypothesis mul_zero_l : ∀ x, ok x → zero (fmul fzero x).
Hypothesis mul_zero_r : ∀ x, ok x → zero (fmul x fzero).
Hypothesis add_zero_zero : ∀ z, zero z → fadd fzero z = fzero.
Hypothesis add_zero_l : ∀ x, ok x → fadd fzero x = nz x.
Hypothesis add_zero_r : ∀ x z, ok x → zero z → fadd (nz x) z = nz x.
Hypothesis ok_one : ok fone.
Hypothesis ok_zero : ok fzero.
Hypothesis zero_zero : zero fzero.
Hypothesis nz_one : nz fone = fone.
Hypothesis nz_zero : nz fzero = fzero.

Ltac is_ok := first [assumption | exact ok_one | exact ok_zero].
Ltac is_zero :=
  first [exact zero_zero | apply mul_zero_l; is_ok | apply mul_zero_r; is_ok].
Ltac settle :=
  repeat first
    [ rewrite mul_one_l by is_ok
    | rewrite mul_one_r by is_ok
    | rewrite add_zero_zero by is_zero
    | rewrite add_zero_l by is_ok
    | rewrite add_zero_r by (first [is_ok | is_zero]) ];
  rewrite ?nz_one, ?nz_zero; reflexivity.

Lemma product_translation (x1 y1 z1 x2 y2 z2 : F) :
  ok x1 → ok y1 → ok z1 → ok x2 → ok y2 → ok z2 →
  product (translation x1 y1 z1) (translation x2 y2 z2)
  = translation (fadd (nz x1) x2) (fadd (nz y1) y2) (fadd (nz z1) z2).
Proof using All.
  intros.
  cbv [product dot elt translation foldl fmap list_fmap seq Nat.div Nat.modulo
       Nat.divmod fst snd Nat.sub Nat.add Nat.mul lookup list_lookup default
       from_option id].
  repeat (apply (f_equal2 cons); [settle |]). reflexivity.
Qed.

Lemma product_affine (A B : list F) :
  length A = 16 → length B = 16 →
  affine A → affine B → Forall ok (outside_column4 A) →
  affine (product A B).
Proof using All.
  intros HA HB. do 16 (destruct A as [|? A]; [discriminate HA |]).
  destruct A; [clear HA | discriminate HA].
  do 16 (destruct B as [|? B]; [discriminate HB |]).
  destruct B; [clear HB | discriminate HB].
  unfold affine, outside_column4.
  cbv [product dot elt foldl fmap list_fmap seq Nat.div Nat.modulo
       Nat.divmod fst snd Nat.sub Nat.add Nat.mul lookup list_lookup default
       from_option id].
  intros (-> & -> & -> & ->) (-> & -> & -> & ->) Hok.
  repeat (apply Forall_cons in Hok as [? Hok]). clear Hok.
  repeat split; settle.
Qed.

End AffineLaws.

Section AffineBinary32.

Lemma f32_product_translation (x1 y1 z1 x2 y2 z2 : spec_float) :
  is_finite32 x1 = true → is_finite32 y1 = true → is_finite32 z1 = true →
  is_finite32 x2 = true → is_finite32 y2 = true → is_finite32 z2 = true →
  product (translation x1 y1 z1) (translation x2 y2 z2)
  = translation (fadd (plus_zero x1) x2) (fadd (plus_zero y1) y2)
                (fadd (plus_zero z1) z2).
Proof.
  apply (product_translation (λ x, is_finite32 x = true)
           (λ z, is_zero32 z = true) plus_zero);
    auto using f32_mul_one_l, f32_mul_one_r, f32_mul_zero_l, f32_mul_zero_r,
      f32_add_zero_zero, f32_add_zero_l, f32_add_zero_r.
Qed.

Lemma f32_product_affine (A B : list spec_float) :
  length A = 16 → length B = 16 →
  affine A → affine B →
  Forall (λ x, is_finite32 x = true) (outside_column4 A) →
  affine (product A B).
Proof.
  apply (product_affine (λ x, is_finite32 x = true)
           (λ z, is_zero32 z = true) plus_zero);
    auto using f32_mul_one_l, f32_mul_one_r, f32_mul_zero_l, f32_mul_zero_r,
      f32_add_zero_zero, f32_add_zero_l, f32_add_zero_r.
Qed.

End AffineBinary32.

(** * Further properties in binary32 and in exact arithmetic *)

(** X7. A freshly constructed matrix has determinant 1.0, whatever the
    store it is constructed in. *)
Theorem fresh_matrix_determinant (h : heap spec_float) :
  (a <- Matrix4_new ;; getDeterminant a) h
  = Some (fone, <[fresh (dom h) := Some <$> identity_matrix]> h).
Proof.
  destruct (Matrix4_new_spec h) as [_ Hnew].
  erewrite bind_Some by exact Hnew.
  pose proof (getDeterminant_spec {| m := fresh (dom h) |} identity_matrix _
                (holds_insert h {| m := fresh (dom h) |} identity_matrix eq_refl))
    as Hdet.
  cbn [m] in Hdet. by rewrite Hdet.
Qed.

(** X8. Translations compose by adding their offsets.  If A and B hold the
    translations by finite (x1, y1, z1) and (x2, y2, z2), then after
    [A.multiply(B)] A holds the translation by (x1 + x2, y1 + y2, z1 + z2),
    each sum being one binary32 addition (a -0.0 offset of A counting as
    +0.0), and its determinant is 1.0. *)
Theorem translations_compose (h : heap spec_float) (a b : Matrix4)
    (x1 y1 z1 x2 y2 z2 : spec_float) :
  holds h a (translation x1 y1 z1) → holds h b (translation x2 y2 z2) →
  is_finite32 x1 = true → is_finite32 y1 = true → is_finite32 z1 = true →
  is_finite32 x2 = true → is_finite32 y2 = true → is_finite32 z2 = true →
  ∃ h', multiply a b h = Some (tt, h')
      ∧ holds h' a (translation (fadd (plus_zero x1) x2)
                                (fadd (plus_zero y1) y2)
                                (fadd (plus_zero z1) z2))
      ∧ getDeterminant a h' = Some (fone, h').
Proof.
  intros HA HB H1 H2 H3 H4 H5 H6.
  eexists. split; [by apply multiply_spec |].
  rewrite f32_product_translation by done.
  assert (Hh : ∀ x y z : spec_float,
            holds (<[m a := Some <$> translation x y z]> h) a (translation x y z))
    by (intros; by apply holds_insert).
  split; [apply Hh |].
  by rewrite (getDeterminant_spec a _ _ (Hh _ _ _)).
Qed.

(** X9. [multiply] keeps matrices affine.  If the 4th columns of A and B
    are (0, 0, 0, 1) and the other twelve elements of A are finite, then
    after [A.multiply(B)] the 4th column of A is again (0, 0, 0, 1),
    whatever the other elements of B. *)
Theorem multiply_keeps_affine (h : heap spec_float) (a b : Matrix4)
    (A B : list spec_float) :
  holds h a A → holds h b B → affine A → affine B →
  Forall (λ x, is_finite32 x = true) (outside_column4 A) →
  ∃ P, multiply a b h = Some (tt, <[m a := Some <$> P]> h)
     ∧ length P = 16 ∧ affine P.
Proof.
  intros HA HB HaA HaB Hfin. exists (product A B).
  split; [by apply multiply_spec |]. split; [apply length_product |].
  destruct HA as [_ HlA], HB as [_ HlB]. by apply f32_product_affine.
Qed.

(** The determinant of a product of integer matrices, when the 4th column
    of the left factor vanishes above the diagonal. *)
Lemma det_product_Z (A B : list Z) :
  length A = 16 → length B = 16 →
  elt A 3 = 0%Z → elt A 7 = 0%Z → elt A 11 = 0%Z →
  cofactor3 (elt (product A B) 0) (elt (product A B) 1) (elt (product A B) 2)
            (elt (product A B) 4) (elt (product A B) 5) (elt (product A B) 6)
            (elt (product A B) 8) (elt (product A B) 9) (elt (product A B) 10)
  = (cofactor3 (elt A 0) (elt A 1) (elt A 2) (elt A 4) (elt A 5) (elt A 6)
               (elt A 8) (elt A 9) (elt A 10)
     * cofactor3 (elt B 0) (elt B 1) (elt B 2) (elt B 4) (elt B 5) (elt B 6)
                 (elt B 8) (elt B 9) (elt B 10))%Z.
Proof.
  intros HA HB. do 16 (destruct A as [|? A]; [discriminate HA |]).
  destruct A; [clear HA | discriminate HA].
  do 16 (destruct B as [|? B]; [discriminate HB |]).
  destruct B; [clear HB | discriminate HB].
  cbv [product dot elt cofactor3 det2 foldl fmap list_fmap seq Nat.div Nat.modulo
       Nat.divmod fst snd Nat.sub Nat.add Nat.mul lookup list_lookup default
       from_option id fadd fsub fmul fzero exactZ].
  intros -> -> ->. ring.
Qed.

(** X10. In binary32 the determinant is multiplicative on matrices of
    small integers: if the elements of A are at most [a] and those of B at
    most [b] in magnitude, with a, b and 4 a b at most 100, and elements
    3, 7, 11 of A are zero, then [A.getDeterminant()] after
    [A.multiply(B)] is the integer product of the determinants that A and
    B had before, no operation having rounded. *)
Theorem determinant_is_multiplicative (h : heap spec_float) (a b : Matrix4)
    (A B : list Z) (bound_A bound_B : Z) :
  holds h a (matrix_of_Z A) → holds h b (matrix_of_Z B) →
  (0 ≤ bound_A ≤ 100)%Z → (0 ≤ bound_B ≤ 100)%Z →
  (4 * (bound_A * bound_B) ≤ 100)%Z →
  Forall (λ x, (Z.abs x ≤ bound_A)%Z) A → Forall (λ x, (Z.abs x ≤ bound_B)%Z) B →
  elt A 3 = 0%Z → elt A 7 = 0%Z → elt A 11 = 0%Z →
  ∃ h' dA dB d (zA zB : Z),
    getDeterminant a h = Some (dA, h) ∧ stands_for dA zA
    ∧ getDeterminant b h = Some (dB, h) ∧ stands_for dB zB
    ∧ multiply a b h = Some (tt, h')
    ∧ getDeterminant a h' = Some (d, h') ∧ stands_for d (zA * zB).
Proof.
  intros HA HB Ha Hb Hab HbA HbB H3 H7 H11.
  assert (Hnine : ∀ X : list Z, Forall (λ x, (Z.abs x ≤ 100)%Z) X →
            Forall (λ x, (Z.abs x ≤ 100)%Z)
              [elt X 0; elt X 1; elt X 2; elt X 4; elt X 5; elt X 6;
               elt X 8; elt X 9; elt X 10]).
  { intros X HX.
    assert (He : ∀ i, (Z.abs (elt X i) ≤ 100)%Z).
    { intros i. unfold elt. destruct (X !! i) as [x|] eqn:Hx; [| simpl; lia].
      by apply (Forall_lookup_1 _ _ _ _ HX Hx). }
    repeat constructor; apply He. }
  assert (HlA : length A = 16).
  { destruct HA as [_ Hl]. unfold matrix_of_Z in Hl. by rewrite length_fmap in Hl. }
  assert (HlB : length B = 16).
  { destruct HB as [_ Hl]. unfold matrix_of_Z in Hl. by rewrite length_fmap in Hl. }
  destruct (product_exact A B bound_A bound_B) as [HP HbP]; try done; try lia.
  eexists _, _, _, _, _, _.
  split; [by apply getDeterminant_spec |].
  split.
  { apply cofactor3_matrix_of_Z, Hnine.
    eapply Forall_impl; [exact HbA | simpl; lia]. }
  split; [by apply getDeterminant_spec |].
  split.
  { apply cofactor3_matrix_of_Z, Hnine.
    eapply Forall_impl; [exact HbB | simpl; lia]. }
  split; [by apply multiply_spec |].
  split; [apply getDeterminant_spec, holds_insert, length_product |].
  rewrite HP, <- (det_product_Z A B HlA HlB H3 H7 H11).
  apply cofactor3_matrix_of_Z, Hnine.
  eapply Forall_impl; [exact HbP | simpl; lia].
Qed.

(** X11. On matrices of integers binary32 multiplies exactly: if the
    elements of A are at most [a] and those of B at most [b] in magnitude,
    with 4 a b < 2^24, then after [A.multiply(B)] A holds the integer
    matrix product, no operation having rounded. *)
Theorem multiply_exact_on_integers (h : heap spec_float) (this other : Matrix4)
    (A B : list Z) (a b : Z) :
  holds h this (matrix_of_Z A) → holds h other (matrix_of_Z B) →
  (0 ≤ a < 2 ^ 24)%Z → (0 ≤ b < 2 ^ 24)%Z → (4 * (a * b) < 2 ^ 24)%Z →
  Forall (λ x, (Z.abs x ≤ a)%Z) A → Forall (λ x, (Z.abs x ≤ b)%Z) B →
  multiply this other h
  = Some (tt, <[m this := Some <$> matrix_of_Z (product A B)]> h).
Proof.
  intros HA HB Ha Hb Hab HbA HbB.
  rewrite (multiply_spec this other _ _ h HA HB).
  by rewrite (proj1 (product_exact A B a b Ha Hb Hab HbA HbB)).
Qed.

(** X12. On a matrix of integers whose upper-left block has elements of
    magnitude at most 100, [getDeterminant] in binary32 returns the exact
    integer determinant of the block (a zero result may carry either
    sign). *)
Theorem getDeterminant_exact_on_integers (h : heap spec_float) (this : Matrix4)
    (A : list Z) :
  holds h this (matrix_of_Z A) →
  Forall (λ x, (Z.abs x ≤ 100)%Z)
    [elt A 0; elt A 1; elt A 2; elt A 4; elt A 5; elt A 6;
     elt A 8; elt A 9; elt A 10] →
  ∃ d, getDeterminant this h = Some (d, h)
     ∧ stands_for d
         (cofactor3 (elt A 0) (elt A 1) (elt A 2) (elt A 4) (elt A 5) (elt A 6)
                    (elt A 8) (elt A 9) (elt A 10)).
Proof.
  intros HA Hb. eexists. split; [by apply getDeterminant_spec |].
  by apply cofactor3_matrix_of_Z.
Qed.

(** X13. [main] is memory-safe and leaks nothing: started in any store it
    runs to its end, prints the determinant 1.0, returns 0, and leaves the
    store exactly as it found it, both matrices freed. *)
Theorem main_restores_store (h : heap spec_float) :
  main h = Some ((fone, 0%Z), h).
Proof.
  unfold main.
  destruct (Matrix4_new_spec h) as [Hp1 Hnew1].
  set (p1 := fresh (dom h)) in *.
  set (h1 := <[p1 := Some <$> identity_matrix]> h) in *.
  destruct (Matrix4_new_spec h1) as [Hp2 Hnew2].
  set (p2 := fresh (dom h1)) in *.
  set (h2 := <[p2 := Some <$> identity_matrix]> h1) in *.
  assert (Hne : p1 ≠ p2).
  { intros Heq. rewrite <- Heq in Hp2. unfold h1 in Hp2.
    by rewrite lookup_insert_eq in Hp2. }
  set (a := {| m := p1 |}) in *. set (b := {| m := p2 |}) in *.
  erewrite bind_Some by exact Hnew1.
  erewrite bind_Some by exact Hnew2.
  assert (Ha2 : holds h2 a identity_matrix).
  { apply (holds_insert_ne h1 b a); [by apply not_eq_sym |].
    by apply (holds_insert h a). }
  erewrite bind_Some by (by apply setTranslation_spec).
  set (TA := <[14 := f32_of_Z 0]> (<[13 := f32_of_Z 5]> (<[12 := f32_of_Z 10]> identity_matrix))).
  set (h3 := <[m a := Some <$> TA]> h2).
  assert (Hb3 : holds h3 b identity_matrix).
  { apply (holds_insert_ne h2 a b); [done |]. by apply (holds_insert h1 b). }
  erewrite bind_Some by (by apply setTranslation_spec).
  set (TB := <[14 := f32_of_Z 1]> (<[13 := f32_of_Z 3]> (<[12 := f32_of_Z 2]> identity_matrix))).
  set (h4 := <[m b := Some <$> TB]> h3).
  assert (Ha4 : holds h4 a TA).
  { apply (holds_insert_ne h3 b a); [by apply not_eq_sym |].
    by apply (holds_insert h2 a). }
  assert (Hb4 : holds h4 b TB) by (by apply (holds_insert h3 b)).
  erewrite bind_Some by (by apply multiply_spec).
  set (h5 := <[m a := Some <$> product TA TB]> h4).
  assert (Ha5 : holds h5 a (product TA TB)).
  { apply (holds_insert h4 a), length_product. }
  erewrite bind_Some by (by apply getDeterminant_spec).
  erewrite bind_Some.
  2: { eapply Matrix4_delete_spec, Ha5. }
  erewrite bind_Some.
  2: { eapply (Matrix4_delete_spec _ b).
       rewrite lookup_delete_ne by done. unfold h5.
       rewrite lookup_insert_ne by done. apply Hb4. }
  unfold ret. f_equal. f_equal.
  apply map_eq. intros q. cbn [m a b].
  destruct (decide (q = p2)) as [-> | Hq2].
  { rewrite lookup_delete_eq. unfold h1 in Hp2.
    by rewrite lookup_insert_ne in Hp2. }
  rewrite lookup_delete_ne by done.
  destruct (decide (q = p1)) as [-> | Hq1].
  { by rewrite lookup_delete_eq. }
  rewrite lookup_delete_ne by done.
  unfold h5, h4, h3, h2, h1. cbn [m a b].
  by rewrite !lookup_insert_ne by done.
Qed.

(** X14. Two matrices constructed one after the other never share a
    buffer: both are in the identity state, on distinct locations that were
    not in use, and every buffer that was in the store is unchanged. *)
Theorem constructions_do_not_alias {F : Type} `{Scalar F} (h : heap F) :
  ∃ a b h', construct_two h = Some ((a, b), h')
    ∧ m a ≠ m b
    ∧ h !! m a = None ∧ h !! m b = None
    ∧ holds h' a identity_matrix ∧ holds h' b identity_matrix
    ∧ ∀ p, p ∈ dom h → h' !! p = h !! p.
Proof.
  destruct (Matrix4_new_spec h) as [Hp1 Hnew1].
  set (p1 := fresh (dom h)) in *.
  set (h1 := <[p1 := Some <$> identity_matrix]> h) in *.
  destruct (Matrix4_new_spec h1) as [Hp2 Hnew2].
  set (p2 := fresh (dom h1)) in *.
  assert (Hne : p1 ≠ p2).
  { intros Heq. rewrite <- Heq in Hp2. unfold h1 in Hp2.
    by rewrite lookup_insert_eq in Hp2. }
  assert (Hp2' : h !! p2 = None).
  { unfold h1 in Hp2. by rewrite lookup_insert_ne in Hp2. }
  exists {| m := p1 |}, {| m := p2 |}, (<[p2 := Some <$> identity_matrix]> h1).
  split.
  { unfold construct_two. erewrite bind_Some by exact Hnew1.
    by erewrite bind_Some by exact Hnew2. }
  split; [done |]. split; [done |]. split; [done |]. split; [| split].
  - apply (holds_insert_ne h1 {| m := p2 |} {| m := p1 |}); [by apply not_eq_sym |].
    by apply (holds_insert h {| m := p1 |}).
  - by apply (holds_insert h1 {| m := p2 |}).
  - intros p [b Hb]%elem_of_dom. unfold h1.
    rewrite !lookup_insert_ne; [done | congruence | congruence].
Qed.

(** X15. On matrices of integers of magnitude at most 100 the two ways
    of computing a triple product leave the same 16 binary32 values, those
    of the integer product: no operation rounds. *)
Theorem triple_product_exact_on_integers (h : heap spec_float) (a b c : Matrix4)
    (A B C : list Z) :
  holds h a (matrix_of_Z A) → holds h b (matrix_of_Z B) →
  holds h c (matrix_of_Z C) →
  Forall (λ x, (Z.abs x ≤ 100)%Z) A → Forall (λ x, (Z.abs x ≤ 100)%Z) B →
  Forall (λ x, (Z.abs x ≤ 100)%Z) C →
  m a ≠ m b → m a ≠ m c →
  ∃ hl hr,
    triple_left a b c h = Some (tt, hl)
    ∧ triple_right a b c h = Some (tt, hr)
    ∧ holds hl a (matrix_of_Z (product (product A B) C))
    ∧ holds hr a (matrix_of_Z (product (product A B) C)).
Proof.
  intros HA HB HC HbA HbB HbC Hab Hac.
  assert (Hlen : ∀ X Y : list Z, length (matrix_of_Z (product X Y)) = 16).
  { intros X Y. unfold matrix_of_Z. by rewrite length_fmap, length_product. }
  destruct (product_assoc_f32 A B C) as [HL HR]; try done.
  { destruct HA as [_ Hl]. unfold matrix_of_Z in Hl. by rewrite length_fmap in Hl. }
  { destruct HB as [_ Hl]. unfold matrix_of_Z in Hl. by rewrite length_fmap in Hl. }
  { destruct HC as [_ Hl]. unfold matrix_of_Z in Hl. by rewrite length_fmap in Hl. }
  eexists _, _.
  split; [by apply triple_left_spec |].
  split; [by apply triple_right_spec |].
  rewrite HL, HR. split; apply holds_insert, Hlen.
Qed.

(** X16. On a block of integers of magnitude at most 100 with two
    identical rows [getDeterminant] returns a zero, +0.0 or -0.0: no
    operation rounds. *)
Theorem equal_rows_exact_on_integers (h : heap spec_float) (this : Matrix4)
    (A : list Z) :
  holds h this (matrix_of_Z A) →
  Forall (λ x, (Z.abs x ≤ 100)%Z)
    [elt A 0; elt A 1; elt A 2; elt A 4; elt A 5; elt A 6;
     elt A 8; elt A 9; elt A 10] →
  (elt A 0 = elt A 4 ∧ elt A 1 = elt A 5 ∧ elt A 2 = elt A 6)
  ∨ (elt A 0 = elt A 8 ∧ elt A 1 = elt A 9 ∧ elt A 2 = elt A 10)
  ∨ (elt A 4 = elt A 8 ∧ elt A 5 = elt A 9 ∧ elt A 6 = elt A 10) →
  ∃ z, getDeterminant this h = Some (z, h) ∧ is_zero32 z = true.
Proof.
  intros HA Hb Hrows.
  eexists. split; [by apply getDeterminant_spec |].
  apply stands_for_zero. pose proof (cofactor3_matrix_of_Z A Hb) as Hdet.
  assert (Hz : cofactor3 (elt A 0) (elt A 1) (elt A 2) (elt A 4) (elt A 5)
                 (elt A 6) (elt A 8) (elt A 9) (elt A 10) = 0%Z).
  { destruct Hrows as [(-> & -> & ->) | [(-> & -> & ->) | (-> & -> & ->)]];
      apply det_equal_rows_Z. }
  by rewrite Hz in Hdet.
Qed.

(** * The further properties at sample inputs *)

Lemma all_matrices_empty {F : Type} : all_matrices (∅ : heap F).
Proof. intros p b Hp. by rewrite lookup_empty in Hp. Qed.

Lemma all_matrices_store2 {F : Type} (A B : list F) :
  length A = 16 → length B = 16 → all_matrices (store2 A B).
Proof.
  intros HA HB. unfold store2, store1.
  apply all_matrices_insert; [| done].
  rewrite <- insert_empty. apply all_matrices_insert; [| done].
  apply all_matrices_empty.
Qed.

Lemma no_use_after_delete_witness :
  let h := store1 counting in
  h !! m matA = Some (Some <$> counting)
  ∧ Matrix4_delete matA h = Some (tt, delete (m matA) h)
  ∧ (Matrix4_delete matA ;;; identity matA) h = None
  ∧ (Matrix4_delete matA ;;; setTranslation matA fone fone fone) h = None
  ∧ (Matrix4_delete matA ;;; getDeterminant matA) h = None
  ∧ (Matrix4_delete matA ;;; Matrix4_delete matA) h = None.
Proof.
  intros h.
  assert (Hp : h !! m matA = Some (Some <$> counting)) by (by vm_compute).
  split; [exact Hp |].
  exact (no_use_after_delete h matA _ fone fone fone Hp).
Defined.

Lemma multiply_frees_temporary_witness :
  let h := store2 counting twice_identity in
  holds h matA counting ∧ holds h matB twice_identity
  ∧ ∃ h', multiply matA matB h = Some (tt, h')
        ∧ dom h' = dom h
        ∧ ∀ p, p ≠ m matA → h' !! p = h !! p.
Proof.
  intros h.
  assert (HA : holds h matA counting) by (by vm_compute).
  assert (HB : holds h matB twice_identity) by (by vm_compute).
  split; [exact HA |]. split; [exact HB |].
  exact (multiply_frees_temporary h matA matB counting twice_identity HA HB).
Defined.

Lemma call_sequences_are_safe_witness :
  let h := store2 counting twice_identity in
  let cs := [call_multiply matA matA;
             call_setTranslation matB (pow2 100) fone fzero;
             call_getDeterminant matA;
             call_multiply matB matA;
             call_identity matA] in
  all_matrices h ∧ Forall (live h) cs
  ∧ ∃ h', run_calls cs h = Some (tt, h') ∧ all_matrices h' ∧ dom h' = dom h.
Proof.
  intros h cs.
  assert (Hh : all_matrices h) by (by apply all_matrices_store2).
  assert (HA : m matA ∈ dom h) by (apply elem_of_dom; eexists; by vm_compute).
  assert (HB : m matB ∈ dom h) by (apply elem_of_dom; eexists; by vm_compute).
  assert (Hcs : Forall (live h) cs) by (repeat constructor; assumption).
  split; [exact Hh |]. split; [exact Hcs |].
  exact (call_sequences_are_safe cs h Hh Hcs).
Defined.

Lemma setTranslation_keeps_determinant_witness :
  let h := store1 counting in
  holds h matA counting
  ∧ ∃ h' d, setTranslation matA (pow2 100) fone fzero h = Some (tt, h')
          ∧ getDeterminant matA h = Some (d, h)
          ∧ getDeterminant matA h' = Some (d, h').
Proof.
  intros h.
  assert (HA : holds h matA counting) by (by vm_compute).
  split; [exact HA |].
  exact (setTranslation_keeps_determinant h matA counting _ _ _ HA).
Defined.

Lemma setTranslation_last_wins_witness :
  let h := store1 counting in
  holds h matA counting
  ∧ (setTranslation matA (pow2 100) fone fzero ;;;
     setTranslation matA fzero fzero fone) h
    = setTranslation matA fzero fzero fone h.
Proof.
  intros h.
  assert (HA : holds h matA counting) by (by vm_compute).
  split; [exact HA |].
  exact (setTranslation_last_wins h matA counting _ _ _ _ _ _ HA).
Defined.

Lemma translations_compose_witness :
  let A := translation (f32_of_Z 10) (f32_of_Z 5) (S754_zero true) in
  let B := translation (pow2 (-3)) (f32_of_Z (-5)) (S754_zero true) in
  let h := store2 A B in
  holds h matA A ∧ holds h matB B
  ∧ ∃ h', multiply matA matB h = Some (tt, h')
        ∧ holds h' matA
            (translation (fadd (plus_zero (f32_of_Z 10)) (pow2 (-3)))
                         (fadd (plus_zero (f32_of_Z 5)) (f32_of_Z (-5)))
                         (fadd (plus_zero (S754_zero true)) (S754_zero true)))
        ∧ getDeterminant matA h' = Some (fone, h').
Proof.
  intros A B h.
  assert (HA : holds h matA A) by (by vm_compute).
  assert (HB : holds h matB B) by (by vm_compute).
  split; [exact HA |]. split; [exact HB |].
  exact (translations_compose h matA matB _ _ _ _ _ _ HA HB
           eq_refl eq_refl eq_refl eq_refl eq_refl eq_refl).
Defined.

Lemma multiply_keeps_affine_witness :
  let A := translation (f32_of_Z 10) (f32_of_Z 5) (S754_zero true) in
  let B := [S754_infinity false; S754_nan; pow2 100; fzero;
            fone; f32_of_Z 7; fone; fzero;
            pow2 (-100); fone; fone; fzero;
            S754_nan; fone; fone; fone] in
  let h := store2 A B in
  holds h matA A ∧ holds h matB B ∧ affine A ∧ affine B
  ∧ Forall (λ x, is_finite32 x = true) (outside_column4 A)
  ∧ ∃ P, multiply matA matB h = Some (tt, <[m matA := Some <$> P]> h)
       ∧ length P = 16 ∧ affine P.
Proof.
  intros A B h.
  assert (HA : holds h matA A) by (by vm_compute).
  assert (HB : holds h matB B) by (by vm_compute).
  assert (HaA : affine A) by (by vm_compute).
  assert (HaB : affine B) by (by vm_compute).
  assert (Hfin : Forall (λ x, is_finite32 x = true) (outside_column4 A))
    by (by repeat constructor).
  repeat (split; [assumption |]).
  exact (multiply_keeps_affine h matA matB A B HA HB HaA HaB Hfin).
Defined.

Lemma determinant_is_multiplicative_witness :
  let A := [2; 1; 0; 0; 0; 3; 1; 0; 1; 0; 1; 0; 4; 5; -5; 1]%Z in
  let B := [1; 2; 3; 4; 0; 1; 5; -4; 3; 0; 1; 2; 5; -1; 0; 2]%Z in
  let h := store2 (matrix_of_Z A) (matrix_of_Z B) in
  holds h matA (matrix_of_Z A) ∧ holds h matB (matrix_of_Z B)
  ∧ (0 ≤ 5 ≤ 100)%Z ∧ (4 * (5 * 5) ≤ 100)%Z
  ∧ Forall (λ x, (Z.abs x ≤ 5)%Z) A ∧ Forall (λ x, (Z.abs x ≤ 5)%Z) B
  ∧ elt A 3 = 0%Z ∧ elt A 7 = 0%Z ∧ elt A 11 = 0%Z
  ∧ ∃ h' dA dB d (zA zB : Z),
      getDeterminant matA h = Some (dA, h) ∧ stands_for dA zA
      ∧ getDeterminant matB h = Some (dB, h) ∧ stands_for dB zB
      ∧ multiply matA matB h = Some (tt, h')
      ∧ getDeterminant matA h' = Some (d, h') ∧ stands_for d (zA * zB).
Proof.
  intros A B h.
  assert (HA : holds h matA (matrix_of_Z A)) by (by vm_compute).
  assert (HB : holds h matB (matrix_of_Z B)) by (by vm_compute).
  assert (H5 : (0 ≤ 5 ≤ 100)%Z) by lia.
  assert (H55 : (4 * (5 * 5) ≤ 100)%Z) by lia.
  assert (HbA : Forall (λ x, (Z.abs x ≤ 5)%Z) A) by (repeat constructor; lia).
  assert (HbB : Forall (λ x, (Z.abs x ≤ 5)%Z) B) by (repeat constructor; lia).
  split; [exact HA |]. split; [exact HB |]. split; [exact H5 |].
  split; [exact H55 |]. split; [exact HbA |]. split; [exact HbB |].
  split; [reflexivity |]. split; [reflexivity |]. split; [reflexivity |].
  exact (determinant_is_multiplicative h matA matB A B 5 5 HA HB H5 H5 H55
           HbA HbB eq_refl eq_refl eq_refl).
Defined.

Lemma multiply_exact_on_integers_witness :
  let A := [2047; -2047; 3; 4; 5; 6; 7; 8; 9; 10; 11; 12; 13; 14; 15; 16]%Z in
  let B := [-2047; 2047; 0; 0; 2047; 2; 0; 0; 0; 0; 2; 0; -1; 0; 0; 2]%Z in
  let h := store2 (matrix_of_Z A) (matrix_of_Z B) in
  holds h matA (matrix_of_Z A) ∧ holds h matB (matrix_of_Z B)
  ∧ (0 ≤ 2047 < 2 ^ 24)%Z ∧ (4 * (2047 * 2047) < 2 ^ 24)%Z
  ∧ Forall (λ x, (Z.abs x ≤ 2047)%Z) A ∧ Forall (λ x, (Z.abs x ≤ 2047)%Z) B
  ∧ multiply matA matB h
    = Some (tt, <[m matA := Some <$> matrix_of_Z (product A B)]> h).
Proof.
  intros A B h.
  assert (HA : holds h matA (matrix_of_Z A)) by (by vm_compute).
  assert (HB : holds h matB (matrix_of_Z B)) by (by vm_compute).
  assert (Ha : (0 ≤ 2047 < 2 ^ 24)%Z) by lia.
  assert (Hab : (4 * (2047 * 2047) < 2 ^ 24)%Z) by lia.
  assert (HbA : Forall (λ x, (Z.abs x ≤ 2047)%Z) A) by (repeat constructor; lia).
  assert (HbB : Forall (λ x, (Z.abs x ≤ 2047)%Z) B) by (repeat constructor; lia).
  repeat (split; [assumption |]).
  exact (multiply_exact_on_integers h matA matB A B 2047 2047 HA HB Ha Ha Hab HbA HbB).
Defined.

Lemma getDeterminant_exact_on_integers_witness :
  let A := [100; -99; 98; 0; -97; 96; 95; 0; 94; 93; -100; 0; 7; 8; 9; 1]%Z in
  let h := store1 (matrix_of_Z A) in
  holds h matA (matrix_of_Z A)
  ∧ Forall (λ x, (Z.abs x ≤ 100)%Z)
      [elt A 0; elt A 1; elt A 2; elt A 4; elt A 5; elt A 6;
       elt A 8; elt A 9; elt A 10]
  ∧ ∃ d, getDeterminant matA h = Some (d, h)
       ∧ stands_for d
           (cofactor3 (elt A 0) (elt A 1) (elt A 2) (elt A 4) (elt A 5) (elt A 6)
                      (elt A 8) (elt A 9) (elt A 10)).
Proof.
  intros A h.
  assert (HA : holds h matA (matrix_of_Z A)) by (by vm_compute).
  assert (Hb : Forall (λ x, (Z.abs x ≤ 100)%Z)
                 [elt A 0; elt A 1; elt A 2; elt A 4; elt A 5; elt A 6;
                  elt A 8; elt A 9; elt A 10])
    by (repeat constructor; vm_compute; discriminate).
  split; [exact HA |]. split; [exact Hb |].
  exact (getDeterminant_exact_on_integers h matA A HA Hb).
Defined.


Lemma triple_product_exact_on_integers_witness :
  let A := [1; 2; 3; 4; 5; 6; 7; 8; 9; 10; 11; 12; 13; 14; 15; 16]%Z in
  let B := [2; 0; 0; 0; 0; 2; 0; 0; 0; 0; 2; 0; 0; 0; 0; 2]%Z in
  let C := [0; 1; 0; 0; -1; 0; 0; 0; 0; 0; 1; 0; 7; 0; 0; 100]%Z in
  let h := store3 (matrix_of_Z A) (matrix_of_Z B) (matrix_of_Z C) in
  holds h matA (matrix_of_Z A) ∧ holds h matB (matrix_of_Z B)
  ∧ holds h matC (matrix_of_Z C)
  ∧ Forall (λ x, (Z.abs x ≤ 100)%Z) A ∧ Forall (λ x, (Z.abs x ≤ 100)%Z) B
  ∧ Forall (λ x, (Z.abs x ≤ 100)%Z) C
  ∧ m matA ≠ m matB ∧ m matA ≠ m matC
  ∧ ∃ hl hr,
      triple_left matA matB matC h = Some (tt, hl)
      ∧ triple_right matA matB matC h = Some (tt, hr)
      ∧ holds hl matA (matrix_of_Z (product (product A B) C))
      ∧ holds hr matA (matrix_of_Z (product (product A B) C)).
Proof.
  intros A B C h.
  assert (HA : holds h matA (matrix_of_Z A)) by (by vm_compute).
  assert (HB : holds h matB (matrix_of_Z B)) by (by vm_compute).
  assert (HC : holds h matC (matrix_of_Z C)) by (by vm_compute).
  assert (HbA : Forall (λ x, (Z.abs x ≤ 100)%Z) A) by (repeat constructor; lia).
  assert (HbB : Forall (λ x, (Z.abs x ≤ 100)%Z) B) by (repeat constructor; lia).
  assert (HbC : Forall (λ x, (Z.abs x ≤ 100)%Z) C) by (repeat constructor; lia).
  assert (Hab : m matA ≠ m matB) by (by vm_compute).
  assert (Hac : m matA ≠ m matC) by (by vm_compute).
  repeat (split; [assumption |]).
  exact (triple_product_exact_on_integers h matA matB matC A B C
           HA HB HC HbA HbB HbC Hab Hac).
Defined.

Lemma equal_rows_exact_on_integers_witness :
  let A : list Z := block3 3%Z (-5)%Z 100%Z 3%Z (-5)%Z 100%Z 99%Z 98%Z (-97)%Z in
  let h := store1 (matrix_of_Z A) in
  holds h matA (matrix_of_Z A)
  ∧ Forall (λ x, (Z.abs x ≤ 100)%Z)
      [elt A 0; elt A 1; elt A 2; elt A 4; elt A 5; elt A 6;
       elt A 8; elt A 9; elt A 10]
  ∧ ((elt A 0 = elt A 4 ∧ elt A 1 = elt A 5 ∧ elt A 2 = elt A 6)
     ∨ (elt A 0 = elt A 8 ∧ elt A 1 = elt A 9 ∧ elt A 2 = elt A 10)
     ∨ (elt A 4 = elt A 8 ∧ elt A 5 = elt A 9 ∧ elt A 6 = elt A 10))
  ∧ ∃ z, getDeterminant matA h = Some (z, h) ∧ is_zero32 z = true.
Proof.
  intros A h.
  assert (HA : holds h matA (matrix_of_Z A)) by (by vm_compute).
  assert (Hb : Forall (λ x, (Z.abs x ≤ 100)%Z)
                 [elt A 0; elt A 1; elt A 2; elt A 4; elt A 5; elt A 6;
                  elt A 8; elt A 9; elt A 10])
    by (repeat constructor; vm_compute; discriminate).
  assert (Hrows :
    (elt A 0 = elt A 4 ∧ elt A 1 = elt A 5 ∧ elt A 2 = elt A 6)
    ∨ (elt A 0 = elt A 8 ∧ elt A 1 = elt A 9 ∧ elt A 2 = elt A 10)
    ∨ (elt A 4 = elt A 8 ∧ elt A 5 = elt A 9 ∧ elt A 6 = elt A 10))
    by (left; by vm_compute).
  split; [exact HA |]. split; [exact Hb |]. split; [exact Hrows |].
  exact (equal_rows_exact_on_integers h matA A HA Hb Hrows).
Defined.
